(** * Ropgen: the gadget discovery engine of [ropgen.py]

    A shallow embedding of the class [ROP] of [src/ropgen.py]: the tail
    classifier [check_end], the window scan [find_gadgets], the gadget
    store (a Python [dict], kept here in insertion order), the template
    selector [check_interesting] and the report formatting.

    Python's [re.match] is embedded by a small backtracking matcher over
    the fragment of the pattern language that the script uses. *)

From Stdlib Require Import List String Ascii ZArith Lia Bool Arith.
From Stdlib Require Import DecimalString Sorted.
From Stdlib.Strings Require Import Byte.
Import ListNotations.

Set Implicit Arguments.
Local Open Scope list_scope.
Local Open Scope string_scope.

(* ================================================================== *)
(** * Python's [re] module, the fragment used by the script *)
(* ================================================================== *)

Module Re.

(** The quantifiers [*], [+] and [?]. *)
Inductive quant : Type := Star | Plus | Opt.

(** Parsed patterns.  A group [( ... )] is the sequence of its items:
    the script never reads the captured text. *)
Inductive regex : Type :=
| Empty
| Literal (c : ascii)
| Any                                  (* [.]: every character but newline *)
| In_ (cs : list ascii)                (* [[abc]] *)
| AtBeginning                          (* [^] *)
| AtEnd                                (* [$] *)
| Seq (r1 r2 : regex)
| Repeat (q : quant) (greedy : bool) (r : regex).

Definition newline : ascii := "010"%char.

(** ** The pattern parser *)

(** What the previous token was: decides what a following [*], [+] or [?]
    means ([?] after a greedy repeat makes it lazy; a repeat of nothing
    or of a repeat is an error in Python). *)
Inductive last_tok : Type := TokNone | TokAtom | TokRepeat | TokLazy.

Record pstate : Type := mk_pstate {
  frames : list (list regex);   (* enclosing groups, innermost first *)
  cur    : list regex;          (* items of the current group, reversed *)
  tok    : last_tok
}.

Definition seq_of (items : list regex) : regex := fold_right Seq Empty items.

Definition push (r : regex) (st : pstate) : pstate :=
  mk_pstate (frames st) (r :: cur st) TokAtom.

Definition push_at (r : regex) (st : pstate) : pstate :=
  mk_pstate (frames st) (r :: cur st) TokNone.

Definition quantify (q : quant) (st : pstate) : option pstate :=
  match tok st, cur st with
  | TokAtom, r :: rest =>
      Some (mk_pstate (frames st) (Repeat q true r :: rest) TokRepeat)
  | TokRepeat, Repeat q' true r :: rest =>
      match q with
      | Opt => Some (mk_pstate (frames st) (Repeat q' false r :: rest) TokLazy)
      | _ => None
      end
  | _, _ => None
  end.

Definition is_digit (c : ascii) : bool :=
  let n := nat_of_ascii c in ((48 <=? n) && (n <=? 57))%nat.

Definition is_alpha (c : ascii) : bool :=
  let n := nat_of_ascii c in
  (((65 <=? n) && (n <=? 90)) || ((97 <=? n) && (n <=? 122)))%nat.

(** [parse_loop p st cls]: [cls] is [Some acc] while inside a character
    set.  Syntax outside the fragment (alternation, counted repeats,
    ranges and negation in sets, class escapes) gives [None]. *)
Fixpoint parse_loop (p : string) (st : pstate) (cls : option (list ascii))
  : option regex :=
  match cls with
  | Some acc =>
      match p with
      | EmptyString => None
      | String c p' =>
          if Ascii.eqb c "]" then
            match acc with
            | [] => None
            | _ => parse_loop p' (push (In_ (rev acc)) st) None
            end
          else if Ascii.eqb c "\" || Ascii.eqb c "-" || Ascii.eqb c "^"
                  || Ascii.eqb c "[" then None
          else parse_loop p' st (Some (c :: acc))
      end
  | None =>
      match p with
      | EmptyString =>
          match frames st with
          | [] => Some (seq_of (rev (cur st)))
          | _ => None
          end
      | String c p' =>
          if Ascii.eqb c "\" then
            match p' with
            | String e p'' =>
                if is_digit e || is_alpha e then None
                else parse_loop p'' (push (Literal e) st) None
            | EmptyString => None
            end
          else if Ascii.eqb c "." then parse_loop p' (push Any st) None
          else if Ascii.eqb c "^" then parse_loop p' (push_at AtBeginning st) None
          else if Ascii.eqb c "$" then parse_loop p' (push_at AtEnd st) None
          else if Ascii.eqb c "[" then parse_loop p' st (Some [])
          else if Ascii.eqb c "(" then
            match p' with
            | String "?" _ => None
            | _ => parse_loop p' (mk_pstate (cur st :: frames st) [] TokNone) None
            end
          else if Ascii.eqb c ")" then
            match frames st with
            | outer :: fs =>
                parse_loop p'
                  (mk_pstate fs (seq_of (rev (cur st)) :: outer) TokAtom) None
            | [] => None
            end
          else if Ascii.eqb c "*" then
            match quantify Star st with
            | Some st' => parse_loop p' st' None
            | None => None
            end
          else if Ascii.eqb c "+" then
            match quantify Plus st with
            | Some st' => parse_loop p' st' None
            | None => None
            end
          else if Ascii.eqb c "?" then
            match quantify Opt st with
            | Some st' => parse_loop p' st' None
            | None => None
            end
          else if Ascii.eqb c "|" then None
          else if Ascii.eqb c "{" then
            (* a brace that opens no counted repeat is an ordinary character *)
            match p' with
            | String d _ =>
                if is_digit d || Ascii.eqb d "," then None
                else parse_loop p' (push (Literal c) st) None
            | EmptyString => parse_loop p' (push (Literal c) st) None
            end
          else parse_loop p' (push (Literal c) st) None
      end
  end.

Definition compile (p : string) : option regex :=
  parse_loop p (mk_pstate [] [] TokNone) None.

(** ** The matcher *)

(** A position in the subject: whether it is the very start, and the text
    that remains. *)
Definition pos : Type := (bool * string)%type.

Definition step_char (ok : ascii -> bool) (st : pos) : list pos :=
  match snd st with
  | String c s' => if ok c then [(false, s')] else []
  | EmptyString => []
  end.

(** [many once g fuel st]: zero or more rounds of [once] from [st], every
    round consuming text; greedy tries the longer alternatives first. *)
Fixpoint many (once : pos -> list pos) (g : bool) (fuel : nat) (st : pos)
  : list pos :=
  match fuel with
  | O => [st]
  | S f =>
      let more :=
        flat_map (fun st' =>
                    if (String.length (snd st') <? String.length (snd st))%nat
                    then many once g f st' else [])
                 (once st) in
      if g then (more ++ [st])%list else st :: more
  end.

(** [ends r st]: the positions at which a match of [r] begun at [st] can
    end, in the order in which backtracking tries them. *)
Fixpoint ends (r : regex) (st : pos) : list pos :=
  match r with
  | Empty => [st]
  | Literal c => step_char (Ascii.eqb c) st
  | Any => step_char (fun c' => negb (Ascii.eqb c' newline)) st
  | In_ cs => step_char (fun c' => existsb (Ascii.eqb c') cs) st
  | AtBeginning => if fst st then [st] else []
  | AtEnd =>
      match snd st with
      | EmptyString => [st]
      | String c EmptyString => if Ascii.eqb c newline then [st] else []
      | _ => []
      end
  | Seq r1 r2 => flat_map (ends r2) (ends r1 st)
  | Repeat q g r' =>
      match q with
      | Opt => if g then (ends r' st ++ [st])%list else st :: ends r' st
      | Star => many (ends r') g (String.length (snd st)) st
      | Plus =>
          flat_map (fun st' => many (ends r') g (String.length (snd st')) st')
                   (ends r' st)
      end
  end.

(** [re.match(pattern, string)] read as a truth value: [true] when a
    match object is returned, that is when some match of the pattern
    begins at the start of [s].  The match need not reach the end of [s]
    unless the pattern itself asks for it. *)
Definition re_match (pattern s : string) : bool :=
  match compile pattern with
  | Some r => match ends r (true, s) with [] => false | _ :: _ => true end
  | None => false
  end.



(** ** What a match is, as a relation

    [Matches r st st']: the pattern [r] can match from position [st] up
    to position [st'].  [ends] enumerates exactly these positions. *)

Definition char_ok (r : regex) (c : ascii) : bool :=
  match r with
  | Literal c0 => Ascii.eqb c0 c
  | Any => negb (Ascii.eqb c newline)
  | In_ cs => existsb (Ascii.eqb c) cs
  | _ => false
  end.

Definition is_char (r : regex) : bool :=
  match r with
  | Literal _ | Any | In_ _ => true
  | _ => false
  end.

Inductive Matches : regex -> pos -> pos -> Prop :=
| M_empty st : Matches Empty st st
| M_char r b c s :
    is_char r = true -> char_ok r c = true ->
    Matches r (b, String c s) (false, s)
| M_begin s : Matches AtBeginning (true, s) (true, s)
| M_end b s :
    s = EmptyString \/ s = String newline EmptyString ->
    Matches AtEnd (b, s) (b, s)
| M_seq r1 r2 st1 st2 st3 :
    Matches r1 st1 st2 -> Matches r2 st2 st3 -> Matches (Seq r1 r2) st1 st3
| M_opt_skip g r st : Matches (Repeat Opt g r) st st
| M_opt_take g r st st' : Matches r st st' -> Matches (Repeat Opt g r) st st'
| M_star_stop g r st : Matches (Repeat Star g r) st st
| M_star_more g r st1 st2 st3 :
    Matches r st1 st2 -> Matches (Repeat Star g r) st2 st3 ->
    Matches (Repeat Star g r) st1 st3
| M_plus g r st1 st2 st3 :
    Matches r st1 st2 -> Matches (Repeat Star g r) st2 st3 ->
    Matches (Repeat Plus g r) st1 st3.

(** Patterns without the end anchor [$]. *)
Fixpoint no_at_end (r : regex) : bool :=
  match r with
  | AtEnd => false
  | Seq r1 r2 => no_at_end r1 && no_at_end r2
  | Repeat _ _ r' => no_at_end r'
  | _ => true
  end.

End Re.

Import Re.

(* ================================================================== *)
(** * Python values used by the script *)
(* ================================================================== *)

(** How a call ends: normally, by [exit(code)], or by an uncaught
    exception. *)
Inductive outcome (A : Type) : Type :=
| Ok (a : A)
| Exit (code : Z)
| Raise (exc : string).

Arguments Ok {A} a.
Arguments Exit {A} code.
Arguments Raise {A} exc.

Definition bind {A B : Type} (m : outcome A) (k : A -> outcome B) : outcome B :=
  match m with
  | Ok a => k a
  | Exit c => Exit c
  | Raise e => Raise e
  end.

Notation "x <- m ;; k" := (bind m (fun x => k))
  (at level 61, m at next level, right associativity).

(** [str.strip()]: the white space of [str.isspace] below code 256. *)
Definition is_space (c : ascii) : bool :=
  let n := nat_of_ascii c in
  (((9 <=? n) && (n <=? 13)) || ((28 <=? n) && (n <=? 32))
   || (n =? 133) || (n =? 160))%nat.

Fixpoint lstrip (s : string) : string :=
  match s with
  | String c s' => if is_space c then lstrip s' else s
  | EmptyString => EmptyString
  end.

Fixpoint rstrip (s : string) : string :=
  match s with
  | String c s' =>
      match rstrip s' with
      | EmptyString => if is_space c then EmptyString else String c EmptyString
      | t => String c t
      end
  | EmptyString => EmptyString
  end.

Definition strip (s : string) : string := rstrip (lstrip s).

(** [seq[lo:hi]] with Python's treatment of negative and oversized bounds. *)
Definition clamp_index (len i : Z) : Z :=
  if (i <? 0)%Z then Z.max (i + len) 0 else Z.min i len.

Definition slice {A : Type} (l : list A) (lo hi : Z) : list A :=
  let len := Z.of_nat (List.length l) in
  let lo' := clamp_index len lo in
  let hi' := clamp_index len hi in
  firstn (Z.to_nat (hi' - lo')) (skipn (Z.to_nat lo') l).

(** [range(start, stop, step)]; a zero step raises [ValueError]. *)
Definition range (start stop step : Z) : outcome (list Z) :=
  if (step =? 0)%Z then Raise "ValueError"
  else
    let n := if (0 <? step)%Z then ((stop - start + step - 1) / step)%Z
             else ((start - stop - step - 1) / (- step))%Z in
    Ok (map (fun k => (start + Z.of_nat k * step)%Z) (seq 0 (Z.to_nat n))).

(** ** Number formatting *)

Definition hex_digit (d : Z) : ascii :=
  nth (Z.to_nat d) (list_ascii_of_string "0123456789abcdef") "0"%char.

Fixpoint hex_loop (fuel : nat) (n : Z) (acc : string) : string :=
  match fuel with
  | O => acc
  | S f =>
      let acc' := String (hex_digit (n mod 16)) acc in
      if (n / 16 =? 0)%Z then acc' else hex_loop f (n / 16)%Z acc'
  end.

(** The lowercase hexadecimal digits of [n >= 0], without prefix. *)
Definition hex (n : Z) : string :=
  hex_loop (S (Z.to_nat (Z.log2 n))) n EmptyString.

Fixpoint zeros (k : nat) : string :=
  match k with
  | O => EmptyString
  | S k' => String "0" (zeros k')
  end.

(** The format specification [#08x]: alternate form (the [0x] prefix),
    sign-aware zero padding, field width 8, lowercase hexadecimal.  The
    width counts the sign and the prefix. *)
Definition format_hash08x (n : Z) : string :=
  let sign := if (n <? 0)%Z then "-" else "" in
  let digits := hex (Z.abs n) in
  let used := (String.length sign + 2 + String.length digits)%nat in
  sign ++ "0x" ++ zeros (8 - used) ++ digits.

(** [str(n)] for a length. *)
Definition str_of_nat (n : nat) : string :=
  NilZero.string_of_uint (Nat.to_uint n).

(** ** Dictionaries

    A [dict] from addresses to instruction lists, in insertion order:
    assigning to a key that is present replaces its value in place, and
    a new key goes to the end. *)
Definition dict : Type := list (Z * list string).

Fixpoint dict_set (d : dict) (k : Z) (v : list string) : dict :=
  match d with
  | [] => [(k, v)]
  | (k', v') :: d' =>
      if (k' =? k)%Z then (k, v) :: d' else (k', v') :: dict_set d' k v
  end.

Definition keys (d : dict) : list Z := map fst d.
Definition values (d : dict) : list (list string) := map snd d.

Fixpoint insts_eqb (a b : list string) : bool :=
  match a, b with
  | [], [] => true
  | x :: a', y :: b' => String.eqb x y && insts_eqb a' b'
  | _, _ => false
  end.

(** [v in d.values()] *)
Definition in_values (v : list string) (d : dict) : bool :=
  existsb (insts_eqb v) (values d).

(* ================================================================== *)
(** * The class [ROP] *)
(* ================================================================== *)

(** ** The Capstone interface

    [capstone.Cs(arch, mode)] is an engine whose [disasm(code, address)]
    yields decoded instructions until the bytes run out or fail to
    decode.  The engine is a parameter of the development. *)
Inductive cs_arch : Type := CS_ARCH_X86 | CS_ARCH_ARM | CS_ARCH_ARM64.
Inductive cs_mode : Type := CS_MODE_64 | CS_MODE_32 | CS_MODE_ARM.

Record CsInsn : Type := mkInsn { mnemonic : string; op_str : string }.

Definition engine : Type := list byte -> Z -> list CsInsn.

(** ** Class attributes *)

(** The parameters that "can be set manually" in the class body. *)
Record settings : Type := mkSettings {
  set_arch_attr  : option string;
  set_start_attr : option Z;
  set_end_attr   : option Z;
  set_VA_attr    : option Z
}.

(** What the two [readelf] runs deliver once parsed: the last word of the
    [Machine:] line in lower case (if there is such a line), address and
    file offset of [.text], and the file offset of the section listed
    after it. *)
Record readelf : Type := mkReadelf {
  machine      : option string;
  text_section : Z * Z;
  next_section : Z
}.

Definition supported_archs : list (string * string) :=
  [ ("x86-64", "x64"); ("80386", "x86"); ("arm", "arm");
    ("aarch64", "aarch64") ].

Definition patterns_x86 : list string :=
  [ "^(pop e..; )*ret" ++
    "^(pop e..; )call e..";
    "^(pop e..; )jmp e..";
    "^mov dword ptr \[e..\], e..; ret" ].

Definition patterns_x64 : list string :=
  [ "^(pop e..; )*ret";
    "^(pop r..; )*ret";
    "^mov [dq]word ptr \[r..\], r..; ret";
    "^mov [dq]word ptr \[r..\], e..; ret" ].

Definition patterns_arm : list string :=
  [ "^pop {(...?, )+pc}";
    "^bl?x? ...?$";
    "^str.*? r..?, \[r..?\]" ].

Definition patterns_aarch64 : option (list string) := None.

(** An instance after [__init__].  [gadgets] and [interesting_gadget]
    are the two dictionaries of the class body; the script makes one
    instance, which finds them empty. *)
Record ROP : Type := mkROP {
  arch               : string;
  start              : Z;
  end_               : Z;
  va                 : Z;
  dis_engine         : engine;
  instruction_size   : Z;
  pattern            : option (list string);
  gadgets            : dict;
  interesting_gadget : dict
}.

(** ** [check_end] *)
Definition check_end (arch : string) (instruction : string) : bool :=
  if String.eqb "x64" arch then
    if String.eqb "ret" instruction || String.eqb "syscall" instruction then true
    else if re_match "call r..?" instruction then true
    else false
  else if String.eqb "x86" arch then
    if String.eqb "ret" instruction || String.eqb "int 0x80" instruction then true
    else if re_match "call e.." instruction then true
    else false
  else if String.eqb "arm" arch then
    if re_match "pop {.*?, pc}" instruction then true
    else if re_match "s[vw][ci] .*?" instruction then true
    else if re_match "bl?x? ..$" instruction then true
    else false
  else if String.eqb "aarch64" arch then
    if re_match "s[vw][ci] .*?" instruction then true
    else if String.eqb "ret" instruction then true
    else if re_match "pop {.*?, pc}" instruction then true
    else false
  else false.

(** ** [find_gadgets] *)

(** The instruction text: [f"{mnemonic} {op_str}".strip()]. *)
Definition inst_text (decoded : CsInsn) : string :=
  strip (mnemonic decoded ++ " " ++ op_str decoded).

(** The inner loop: texts are appended to [tmp] up to and including the
    first one that [check_end] accepts; the flag is [found]. *)
Fixpoint collect (arch : string) (disassembly : list CsInsn)
  (tmp : list string) : list string * bool :=
  match disassembly with
  | [] => (tmp, false)
  | decoded :: rest =>
      let inst := inst_text decoded in
      let tmp' := (tmp ++ [inst])%list in
      if check_end arch inst then (tmp', true) else collect arch rest tmp'
  end.

(** The candidate of offset [i]: the 20-byte window decoded at [va + i]. *)
Definition candidate (self : ROP) (file_content : list byte) (i : Z)
  : list string * bool :=
  collect (arch self)
    (dis_engine self (slice file_content i (i + 20)) (va self + i)%Z) [].

(** One round of the outer loop. *)
Definition scan_offset (self : ROP) (file_content : list byte)
  (gadgets : dict) (i : Z) : dict :=
  let '(tmp, found) := candidate self file_content i in
  if negb found then gadgets
  else if in_values tmp gadgets then gadgets
  else dict_set gadgets (va self + i)%Z tmp.

Definition report_line (address : Z) (text : string) : string :=
  format_hash08x address ++ ": " ++ text ++ String newline EmptyString.

Definition gadgets_to_write (gadgets : dict) : string :=
  fold_left
    (fun to_write '(address, instructions) =>
       to_write ++ report_line address (String.concat "; " instructions))
    gadgets EmptyString.

Definition set_gadgets (self : ROP) (g : dict) : ROP :=
  mkROP (arch self) (start self) (end_ self) (va self) (dis_engine self)
        (instruction_size self) (pattern self) g (interesting_gadget self).

Definition set_interesting (self : ROP) (g : dict) : ROP :=
  mkROP (arch self) (start self) (end_ self) (va self) (dis_engine self)
        (instruction_size self) (pattern self) (gadgets self) g.

(** [find_gadgets]: the instance afterwards, and the text written to the
    file [<binary>_gadgets.asm]. *)
Definition find_gadgets (self : ROP) (file_content : list byte)
  : outcome (ROP * string) :=
  offsets <- range (start self)
                   (end_ self + instruction_size self * 2)%Z
                   (instruction_size self) ;;
  let g := fold_left (scan_offset self file_content) offsets (gadgets self) in
  Ok (set_gadgets self g,
      str_of_nat (List.length g) ++ " gadgets found"
        ++ String newline EmptyString ++ gadgets_to_write g).

(** ** [check_interesting] *)

(** The selector's running state: the dictionary of interesting gadgets,
    the calls of [make_function] so far (each with the position in
    [self.pattern] of the template that caused it) and [to_write]. *)
Record selection : Type := mkSelection {
  sel_interesting : dict;
  sel_calls       : list (nat * Z * list string);
  sel_to_write    : string
}.

(** The three statements under the [if]: the gadget enters
    [interesting_gadget], [make_function] is called, a line is added. *)
Definition flag (k : nat) (address : Z) (i : list string) (s : selection)
  : selection :=
  mkSelection (dict_set (sel_interesting s) address i)
              (sel_calls s ++ [(k, address, i)])%list
              (sel_to_write s ++ report_line address (String.concat "; " i)).

(** The body of the loop over the templates, for the gadget [(address, i)]. *)
Definition try_pattern (address : Z) (i : list string) (s : selection)
  (kp : nat * string) : selection :=
  let gadget := String.concat "; " i in
  if re_match (snd kp) gadget && negb (in_values i (sel_interesting s))
  then flag (fst kp) address i s
  else s.

Definition enumerate {A : Type} (l : list A) : list (nat * A) :=
  combine (seq 0 (List.length l)) l.

(** The body of the loop over [self.gadgets.items()]. *)
Definition select_gadget (patterns : list string) (s : selection)
  (item : Z * list string) : selection :=
  fold_left (try_pattern (fst item) (snd item)) (enumerate patterns) s.

Definition select_all (patterns : list string) (gadgets interesting : dict)
  : selection :=
  fold_left (select_gadget patterns) gadgets
            (mkSelection interesting [] EmptyString).

(** [check_interesting]: the instance afterwards, the file (appended to
    when some gadget is interesting) and the calls of [make_function]. *)
Definition check_interesting (self : ROP) (file : string)
  : ROP * string * list (nat * Z * list string) :=
  match pattern self with
  | None => (self, file, [])
  | Some patterns =>
      let s := select_all patterns (gadgets self) (interesting_gadget self) in
      let file' :=
        if (0 <? List.length (sel_interesting s))%nat
        then file ++ String newline (String newline EmptyString)
                  ++ "Interesting Gadgets:" ++ String newline EmptyString
                  ++ sel_to_write s
        else file in
      (set_interesting self (sel_interesting s), file', sel_calls s)
  end.

(** ** [__init__] and [initialize] *)

Section Capstone.

Variable Cs : cs_arch -> cs_mode -> engine.

(** [set_arch]: a manual setting wins; otherwise the machine word is
    looked up in [supported_archs]. *)
Definition set_arch (cfg : settings) (elf : readelf) : outcome string :=
  match set_arch_attr cfg with
  | Some a => Ok a
  | None =>
      match machine elf with
      | None => Exit 1
      | Some tmp =>
          match find (fun kv => String.eqb (fst kv) tmp) supported_archs with
          | Some kv => Ok (snd kv)
          | None => Raise "KeyError"
          end
      end
  end.

(** [set_mode]: engine, step and templates of the architecture; an
    architecture outside the four is fatal. *)
Definition set_mode (arch : string)
  : outcome (engine * Z * option (list string)) :=
  if String.eqb "x64" arch then
    Ok (Cs CS_ARCH_X86 CS_MODE_64, 1%Z, Some patterns_x64)
  else if String.eqb "x86" arch then
    Ok (Cs CS_ARCH_X86 CS_MODE_32, 1%Z, Some patterns_x86)
  else if String.eqb "arm" arch then
    Ok (Cs CS_ARCH_ARM CS_MODE_ARM, 4%Z, Some patterns_arm)
  else if String.eqb "aarch64" arch then
    Ok (Cs CS_ARCH_ARM64 CS_MODE_ARM, 4%Z, patterns_aarch64)
  else Exit 1.

(** [set_offsets]: [(va, start, end)].  With the three attributes set by
    hand the method reads [self.va], which nothing has assigned (the
    class attribute is [VA]); otherwise the values come from [readelf]
    and the load bias is the address of [.text] minus its offset. *)
Definition set_offsets (cfg : settings) (elf : readelf) : outcome (Z * Z * Z) :=
  match set_start_attr cfg, set_end_attr cfg, set_VA_attr cfg with
  | Some _, Some _, Some _ => Raise "AttributeError"
  | _, _, _ =>
      let '(va0, start0) := text_section elf in
      let end0 := next_section elf in
      Ok ((va0 - start0)%Z, start0, end0)
  end.

Definition init (cfg : settings) (elf : readelf) : outcome ROP :=
  a <- set_arch cfg elf ;;
  m <- set_mode a ;;
  o <- set_offsets cfg elf ;;
  let '(eng, size, pats) := m in
  let '(va0, start0, end0) := o in
  Ok (mkROP a start0 end0 va0 eng size pats [] []).

Definition initialize (self : ROP) (file_content : list byte)
  : outcome (ROP * string * list (nat * Z * list string)) :=
  r <- find_gadgets self file_content ;;
  Ok (check_interesting (fst r) (snd r)).

(** The script: [r = ROP(filename); r.initialize()]. *)
Definition main (cfg : settings) (elf : readelf) (file_content : list byte)
  : outcome (ROP * string * list (nat * Z * list string)) :=
  self <- init cfg elf ;;
  initialize self file_content.

End Capstone.

(* ================================================================== *)
(** * Reading the output of [readelf] *)
(* ================================================================== *)

(** ** The [bytes] methods involved *)

(** White space for [bytes.split()] and [int]: tab to carriage return,
    and the space. *)
Definition is_bspace (c : ascii) : bool :=
  let n := nat_of_ascii c in
  (((9 <=? n) && (n <=? 13)) || (n =? 32))%nat.

Fixpoint all_bspace (s : string) : bool :=
  match s with
  | EmptyString => true
  | String c s' => is_bspace c && all_bspace s'
  end.

Fixpoint skip_bspace (s : string) : string :=
  match s with
  | String c s' => if is_bspace c then skip_bspace s' else s
  | EmptyString => EmptyString
  end.

(** [bytes.lower()] *)
Definition lower_char (c : ascii) : ascii :=
  let n := nat_of_ascii c in
  if ((65 <=? n) && (n <=? 90))%nat then ascii_of_nat (n + 32) else c.

Fixpoint lower (s : string) : string :=
  match s with
  | EmptyString => EmptyString
  | String c s' => String (lower_char c) (lower s')
  end.

Definition carriage_return : ascii := "013"%char.

(** [bytes.splitlines()]: lines end at [\n], [\r] or [\r\n]; the ends
    are dropped and no empty line follows the last end. *)
Fixpoint splitlines (s : string) : list string :=
  match s with
  | EmptyString => []
  | String c s' =>
      if Ascii.eqb c newline then EmptyString :: splitlines s'
      else if Ascii.eqb c carriage_return then
        match s' with
        | String c' s'' =>
            if Ascii.eqb c' newline then EmptyString :: splitlines s''
            else EmptyString :: splitlines s'
        | EmptyString => [EmptyString]
        end
      else
        match splitlines s' with
        | line :: rest => String c line :: rest
        | [] => [String c EmptyString]
        end
  end.

Fixpoint starts_with (p s : string) : bool :=
  match p, s with
  | EmptyString, _ => true
  | String a p', String b s' => Ascii.eqb a b && starts_with p' s'
  | String _ _, EmptyString => false
  end.

(** [sub in s] *)
Fixpoint contains (sub s : string) : bool :=
  starts_with sub s ||
  match s with
  | EmptyString => false
  | String _ s' => contains sub s'
  end.

(** [s.split(sep)] for a separator that is not empty: the pieces between
    the occurrences of [sep], found from the left and not overlapping.
    [skip] counts the characters of an occurrence still to pass. *)
Fixpoint split_on_go (sep s : string) (skip : nat) : list string :=
  match s with
  | EmptyString => [EmptyString]
  | String c s' =>
      match skip with
      | S k => split_on_go sep s' k
      | O =>
          if starts_with sep s
          then EmptyString :: split_on_go sep s' (String.length sep - 1)
          else match split_on_go sep s' 0 with
               | piece :: rest => String c piece :: rest
               | [] => [String c EmptyString]
               end
      end
  end.

Definition split_on (sep s : string) : outcome (list string) :=
  match sep with
  | EmptyString => Raise "ValueError"
  | _ => Ok (split_on_go sep s 0)
  end.

(** [s.split()]: the maximal runs of characters that are no white
    space. *)
Fixpoint split_ws (s : string) : list string :=
  match s with
  | EmptyString => []
  | String c s' =>
      if is_bspace c then split_ws s'
      else
        match s' with
        | String c' _ =>
            if is_bspace c' then String c EmptyString :: split_ws s'
            else match split_ws s' with
                 | tok :: rest => String c tok :: rest
                 | [] => [String c EmptyString]
                 end
        | EmptyString => [String c EmptyString]
        end
  end.

(** [l[k]] for [k >= 0]. *)
Definition item {A : Type} (l : list A) (k : nat) : outcome A :=
  match nth_error l k with
  | Some x => Ok x
  | None => Raise "IndexError"
  end.

(** [l[-1]] *)
Definition last_item {A : Type} (l : list A) : outcome A :=
  match rev l with
  | x :: _ => Ok x
  | [] => Raise "IndexError"
  end.

(** ** [int(s, 16)] *)

Definition hex_digit_any (c : ascii) : option Z :=
  let n := nat_of_ascii c in
  if ((48 <=? n) && (n <=? 57))%nat then Some (Z.of_nat n - 48)%Z
  else if ((97 <=? n) && (n <=? 102))%nat then Some (Z.of_nat n - 87)%Z
  else if ((65 <=? n) && (n <=? 70))%nat then Some (Z.of_nat n - 55)%Z
  else None.

(** The digits, with single underscores allowed between them; gives the
    value and the text behind the digits. *)
Fixpoint scan_digits (s : string) (acc : Z) (prev_underscore : bool)
  : option (Z * string) :=
  match s with
  | EmptyString => if prev_underscore then None else Some (acc, EmptyString)
  | String c s' =>
      if Ascii.eqb c "_" then
        if prev_underscore then None else scan_digits s' acc true
      else
        match hex_digit_any c with
        | Some d => scan_digits s' (16 * acc + d)%Z false
        | None => if prev_underscore then None else Some (acc, s)
        end
  end.

(** The digits of a number, once sign and prefix are behind: they must
    begin with a digit, and only white space may follow them. *)
Definition int16_digits (neg : bool) (s3 : string) : outcome Z :=
  match s3 with
  | String c _ =>
      match hex_digit_any c with
      | None => Raise "ValueError"
      | Some _ =>
          match scan_digits s3 0 false with
          | Some (v, rest) =>
              if all_bspace rest
              then Ok (if neg then (- v)%Z else v)
              else Raise "ValueError"
          | None => Raise "ValueError"
          end
      end
  | EmptyString => Raise "ValueError"
  end.

(** White space, an optional sign, an optional [0x] or [0X] (after which
    one underscore may stand), the digits, white space.  Anything else
    is a [ValueError]. *)
Definition int16 (s : string) : outcome Z :=
  let s1 := skip_bspace s in
  let signed :=
    match s1 with
    | String c r =>
        if Ascii.eqb c "+" then (false, r)
        else if Ascii.eqb c "-" then (true, r)
        else (false, s1)
    | EmptyString => (false, s1)
    end in
  let s2 := snd signed in
  let s3 :=
    match s2 with
    | String c (String x r) =>
        if Ascii.eqb c "0" && (Ascii.eqb x "x" || Ascii.eqb x "X") then
          match r with
          | String u r' => if Ascii.eqb u "_" then r' else r
          | EmptyString => r
          end
        else s2
    | _ => s2
    end in
  int16_digits (fst signed) s3.

(** ** [get_section_info] and [find_next_section_info] *)

(** The part of [get_section_info] after the line has been found. *)
Definition section_line_info (section_name line : string)
  : outcome (option Z * option Z) :=
  parts <- split_on section_name line ;;
  tmp <- item parts 1 ;;
  let tmp := split_ws tmp in
  t1 <- item tmp 1 ;;
  va0 <- int16 t1 ;;
  t2 <- item tmp 2 ;;
  start0 <- int16 t2 ;;
  Ok (Some va0, Some start0).

(** [get_section_info]: the first line holding the name decides;
    without such a line the result is [(None, None)]. *)
Definition get_section_info (sections section_name : string)
  : outcome (option Z * option Z) :=
  match find (contains section_name) (splitlines sections) with
  | None => Ok (None, None)
  | Some line => section_line_info section_name line
  end.

(** What [find_next_section_info] returns: the pair [(None, None)] when
    no line holds the name, otherwise the second component of what
    [get_section_info] gives for the next section. *)
Inductive next_result : Type :=
| NoSuchSection
| NextStart (offset : option Z).

(** The line after the first line that holds the name. *)
Fixpoint line_after (section_name : string) (sections_list : list string)
  : outcome (option string) :=
  match sections_list with
  | [] => Ok None
  | line :: rest =>
      if contains section_name line then
        match rest with
        | next :: _ => Ok (Some next)
        | [] => Raise "IndexError"
        end
      else line_after section_name rest
  end.

Definition find_next_section_info (sections section_name : string)
  : outcome next_result :=
  tmp <- line_after section_name (splitlines sections) ;;
  match tmp with
  | None => Ok NoSuchSection
  | Some tmp =>
      parts <- split_on "]" tmp ;;
      tmp <- item parts 1 ;;
      tmp <- item (split_ws tmp) 0 ;;
      r <- get_section_info sections tmp ;;
      Ok (NextStart (snd r))
  end.

(** The [else] branch of [set_offsets] on the text that [readelf -SW]
    printed: subtracting or adding [None] (or the pair) is a
    [TypeError]. *)
Definition offsets_of_sections (sections : string) : outcome (Z * Z * Z) :=
  ret <- get_section_info sections ".text" ;;
  e <- find_next_section_info sections ".text" ;;
  match ret with
  | (Some va0, Some start0) =>
      match e with
      | NextStart (Some end0) => Ok ((va0 - start0)%Z, start0, end0)
      | _ => Raise "TypeError"
      end
  | _ => Raise "TypeError"
  end.

(** One round of the loop of [set_arch] over the lines that
    [readelf -h] printed: a line that holds [machine:] (in any case)
    sets [tmp] to its last word, in lower case. *)
Definition machine_step (acc : outcome (option string)) (entry : string)
  : outcome (option string) :=
  tmp <- acc ;;
  if contains "machine:" (lower entry)
  then w <- last_item (split_ws entry) ;; Ok (Some (lower w))
  else Ok tmp.

(** The loop: [tmp] starts as [None] and the loop has no [break], so the
    last such line decides. *)
Definition machine_word (stdout : string) : outcome (option string) :=
  fold_left machine_step (splitlines stdout) (Ok None).

(** [set_arch] on the text that [readelf -h] printed. *)
Definition arch_of_header (cfg : settings) (stdout : string) : outcome string :=
  match set_arch_attr cfg with
  | Some a => Ok a
  | None =>
      tmp <- machine_word stdout ;;
      match tmp with
      | None => Exit 1
      | Some tmp =>
          match find (fun kv => String.eqb (fst kv) tmp) supported_archs with
          | Some kv => Ok (snd kv)
          | None => Raise "KeyError"
          end
      end
  end.

(* ================================================================== *)
(** * Notions used to state the properties *)
(* ================================================================== *)

(** [insts] ends in a tail instruction and holds no other one. *)
Definition tail_only (arch : string) (insts : list string) : Prop :=
  exists body tail,
    insts = (body ++ [tail])%list /\
    check_end arch tail = true /\
    Forall (fun inst => check_end arch inst = false) body.

(** The position of the first template that matches [text]. *)
Fixpoint first_match_from (k : nat) (patterns : list string) (text : string)
  : option nat :=
  match patterns with
  | [] => None
  | p :: rest =>
      if re_match p text then Some k else first_match_from (S k) rest text
  end.

Definition first_match (patterns : list string) (text : string) : option nat :=
  first_match_from 0 patterns text.

(** The value of a string of lowercase hexadecimal digits; [None] when
    some character is not such a digit. *)
Definition hex_digit_value (c : ascii) : option Z :=
  let n := nat_of_ascii c in
  if ((48 <=? n) && (n <=? 57))%nat then Some (Z.of_nat n - 48)%Z
  else if ((97 <=? n) && (n <=? 102))%nat then Some (Z.of_nat n - 87)%Z
  else None.

Fixpoint hex_value_from (acc : Z) (s : string) : option Z :=
  match s with
  | EmptyString => Some acc
  | String c s' =>
      match hex_digit_value c with
      | Some d => hex_value_from (16 * acc + d)%Z s'
      | None => None
      end
  end.

Definition hex_value (s : string) : option Z := hex_value_from 0 s.

(** The store [g] after the offsets [seen] have been scanned: contents
    are stored once, each under the least offset of [seen] that yields
    it, and every terminated candidate of [seen] is in the store. *)
Definition first_kept (self : ROP) (file_content : list byte)
  (seen : list Z) (g : dict) : Prop :=
  NoDup (values g) /\
  (forall a insts, In (a, insts) g ->
     exists i, In i seen /\ a = (va self + i)%Z /\
               candidate self file_content i = (insts, true) /\
               forall j, In j seen ->
                         candidate self file_content j = (insts, true) ->
                         (i <= j)%Z) /\
  (forall j insts, In j seen ->
     candidate self file_content j = (insts, true) -> In insts (values g)).

(** The lines that the calls of [make_function] stand for. *)
Definition lines_of_calls (calls : list (nat * Z * list string)) : string :=
  fold_left
    (fun acc c => acc ++ report_line (snd (fst c)) (String.concat "; " (snd c)))
    calls EmptyString.

(** The selector's state after the gadgets [seen]: every call is for a
    gadget of [seen] that is now in the dictionary, made by the first
    template that matches it, and no content was passed twice. *)
Definition flagged_once (patterns : list string) (seen : dict)
  (s : selection) : Prop :=
  (forall k a i, In (k, a, i) (sel_calls s) ->
     In (a, i) seen /\ In (a, i) (sel_interesting s) /\
     first_match patterns (String.concat "; " i) = Some k) /\
  NoDup (map snd (sel_calls s)).

(** The position [st] moved to the same place in the subject [s ++ t]. *)
Definition extend (t : string) (st : pos) : pos := (fst st, snd st ++ t).

(** No character of [s] is a newline. *)
Fixpoint no_newline (s : string) : bool :=
  match s with
  | EmptyString => true
  | String c s' => negb (Ascii.eqb c newline) && no_newline s'
  end.

(** The dictionary item that a call of [make_function] stands for. *)
Definition call_item (c : nat * Z * list string) : Z * list string :=
  (snd (fst c), snd c).

(* ================================================================== *)
(** * A small decoder for examples *)
(* ================================================================== *)

Module Demo.

(** One-byte instructions only; every other byte stops the decoding, as
    an invalid opcode does. *)
Fixpoint toy_decode (wide : bool) (code : list byte) : list CsInsn :=
  match code with
  | xc3 :: rest => mkInsn "ret" "" :: toy_decode wide rest
  | x90 :: rest => mkInsn "nop" "" :: toy_decode wide rest
  | x58 :: rest =>
      mkInsn "pop" (if wide then "rax" else "eax") :: toy_decode wide rest
  | x5b :: rest =>
      mkInsn "pop" (if wide then "rbx" else "ebx") :: toy_decode wide rest
  | _ => []
  end.

Definition toy_Cs (a : cs_arch) (m : cs_mode) : engine :=
  fun code _ =>
    match a, m with
    | CS_ARCH_X86, CS_MODE_64 => toy_decode true code
    | CS_ARCH_X86, CS_MODE_32 => toy_decode false code
    | _, _ => []
    end.

(** Twenty bytes, all zero but a [ret] at offset 10. *)
Definition lone_ret : list byte :=
  (repeat x00 10 ++ [xc3] ++ repeat x00 9)%list.

(** [pop rax; ret] at offsets 0 and 3, with a stray byte between. *)
Definition twice : list byte := [x58; xc3; x00; x58; xc3].

Definition elf_at (addr off next : Z) (m : string) : readelf :=
  mkReadelf (Some m) (addr, off) next.

Definition no_settings : settings := mkSettings None None None None.

(** The x64 instance for a binary whose [.text] is at file offset 0 and
    address [addr], followed by a section at offset [stop]. *)
Definition x64_self (addr stop : Z) : ROP :=
  mkROP "x64" 0 stop addr (toy_Cs CS_ARCH_X86 CS_MODE_64) 1
        (Some patterns_x64) [] [].

(** Two lines as [readelf -SW] prints them, and a header line of
    [readelf -h]. *)
Definition text_line : string :=
  "  [13] .text             PROGBITS        00000000004006e0 0006e0 0009d2 00".

Definition fini_line : string :=
  "  [14] .fini             PROGBITS        00000000004010b4 0010b4 000009".

Definition listing : string :=
  text_line ++ String newline EmptyString ++ fini_line
            ++ String newline EmptyString.

Definition header : string :=
  "  Class:                             ELF64" ++ String newline EmptyString
  ++ "  Machine:                           Advanced Micro Devices X86-64"
  ++ String newline EmptyString
  ++ "  Version:                           0x1" ++ String newline EmptyString.

End Demo.

(* ================================================================== *)
(** * Facts about the matcher *)
(* ================================================================== *)

Module ReFacts.

Lemma many_stop (once : pos -> list pos) g fuel st :
  In st (many once g fuel st).
Proof.
  destruct fuel as [|f]; simpl; [now left|].
  destruct g; [apply in_or_app; right; now left | now left].
Qed.

Lemma many_unfold (once : pos -> list pos) g f st x :
  In x (many once g (S f) st) <->
  x = st \/
  exists st', In st' (once st) /\
              (String.length (snd st') < String.length (snd st))%nat /\
              In x (many once g f st').
Proof.
  simpl. split.
  - intros H.
    assert (H' : x = st \/
                 In x (flat_map
                         (fun st' =>
                            if (String.length (snd st') <? String.length (snd st))%nat
                            then many once g f st' else []) (once st))).
    { destruct g.
      - apply in_app_or in H. destruct H as [H|[H|[]]]; auto.
      - destruct H as [H|H]; auto. }
    destruct H' as [->|H']; [now left|right].
    apply in_flat_map in H'. destruct H' as [st' [Hin Hx]].
    destruct (Nat.ltb_spec (String.length (snd st')) (String.length (snd st)));
      [|contradiction].
    exists st'. auto.
  - intros [->|[st' [Hin [Hlt Hx]]]].
    + destruct g; [apply in_or_app; right; now left | now left].
    + assert (In x (flat_map
                      (fun st' =>
                         if (String.length (snd st') <? String.length (snd st))%nat
                         then many once g f st' else []) (once st))).
      { apply in_flat_map. exists st'. split; [assumption|].
        apply Nat.ltb_lt in Hlt. now rewrite Hlt. }
      destruct g; [apply in_or_app; now left | now right].
Qed.

Lemma many_mono (once : pos -> list pos) g f :
  forall st x, In x (many once g f st) -> In x (many once g (S f) st).
Proof.
  induction f as [|f IH]; intros st x H.
  - simpl in H. destruct H as [<-|[]]. apply many_stop.
  - apply many_unfold in H. apply many_unfold.
    destruct H as [->|[st' [Hin [Hlt Hx]]]]; [now left|right].
    exists st'. auto.
Qed.

Lemma many_mono_le (once : pos -> list pos) g f f' st x :
  (f <= f')%nat -> In x (many once g f st) -> In x (many once g f' st).
Proof.
  intros Hle. induction Hle as [|m Hle IH]; [trivial|].
  intros Hx. apply many_mono. auto.
Qed.

Lemma step_char_In ok st st' :
  In st' (step_char ok st) <->
  exists c s, snd st = String c s /\ ok c = true /\ st' = (false, s).
Proof.
  unfold step_char. destruct (snd st) as [|c s] eqn:E.
  - split; [intros []|]. intros [c [s [H _]]]. discriminate.
  - destruct (ok c) eqn:Hok.
    + split.
      * intros [<-|[]]. exists c, s. auto.
      * intros [c' [s' [H [_ ->]]]]. inversion H; subst. now left.
    + split; [intros []|]. intros [c' [s' [H [Hok' _]]]].
      inversion H; subst. congruence.
Qed.

Lemma many_sound (r : regex) g :
  (forall a b, In b (ends r a) -> Matches r a b) ->
  forall f st x, In x (many (ends r) g f st) -> Matches (Repeat Star g r) st x.
Proof.
  intros IH f. induction f as [|f IHf]; intros st x H.
  - simpl in H. destruct H as [<-|[]]. constructor.
  - apply many_unfold in H. destruct H as [->|[st' [Hin [_ Hx]]]].
    + constructor.
    + eapply M_star_more; eauto.
Qed.

(** Every position listed by [ends] is the end of a match. *)
Lemma ends_sound (r : regex) :
  forall st st', In st' (ends r st) -> Matches r st st'.
Proof.
  induction r as [| c | | cs | | | r1 IH1 r2 IH2 | q g r IH]; intros st st' H.
  - simpl in H. destruct H as [<-|[]]. constructor.
  - simpl in H. apply step_char_In in H. destruct H as [c' [s [E [Hok ->]]]].
    destruct st as [b t]. simpl in E. subst t. now constructor.
  - simpl in H. apply step_char_In in H. destruct H as [c' [s [E [Hok ->]]]].
    destruct st as [b t]. simpl in E. subst t. now constructor.
  - simpl in H. apply step_char_In in H. destruct H as [c' [s [E [Hok ->]]]].
    destruct st as [b t]. simpl in E. subst t. now constructor.
  - destruct st as [[|] t]; simpl in H; [|contradiction].
    destruct H as [<-|[]]. constructor.
  - destruct st as [b t]. simpl in H.
    destruct t as [|c [|c' t']]; try contradiction.
    + destruct H as [<-|[]]. constructor. now left.
    + destruct (Ascii.eqb_spec c newline); [|contradiction].
      destruct H as [<-|[]]. subst c. constructor. now right.
  - simpl in H. apply in_flat_map in H. destruct H as [mid [H1 H2]].
    econstructor; eauto.
  - destruct q; simpl in H.
    + eapply many_sound; eauto.
    + apply in_flat_map in H. destruct H as [mid [H1 H2]].
      eapply M_plus; [eauto|]. eapply many_sound; eauto.
    + assert (H' : st' = st \/ In st' (ends r st)).
      { destruct g.
        - apply in_app_or in H. destruct H as [H|[H|[]]]; auto.
        - destruct H as [H|H]; auto. }
      destruct H' as [->|H']; [apply M_opt_skip | apply M_opt_take; auto].
Qed.

(** A match either consumes nothing and stays where it is, or consumes
    text and is then no longer at the start. *)
Lemma Matches_shape r st st' :
  Matches r st st' ->
  st' = st \/
  (fst st' = false /\ (String.length (snd st') < String.length (snd st))%nat).
Proof.
  induction 1; auto;
    try (destruct IHMatches1 as [->|[Hf Hl]]; [assumption|];
         destruct IHMatches2 as [->|[Hf' Hl']]; right;
         [auto | split; [auto | lia]]).
Qed.

Lemma many_complete_step (once : pos -> list pos) g st1 st2 st3 :
  In st2 (once st1) ->
  st2 = st1 \/ (String.length (snd st2) < String.length (snd st1))%nat ->
  In st3 (many once g (String.length (snd st2)) st2) ->
  In st3 (many once g (String.length (snd st1)) st1).
Proof.
  intros Hin [->|Hlt] H3; [assumption|].
  destruct (String.length (snd st1)) as [|f] eqn:E; [lia|].
  rewrite <- E. rewrite E. apply many_unfold. right.
  exists st2. split; [assumption|]. split; [lia|].
  eapply many_mono_le; [|eassumption]. lia.
Qed.

(** Every end of a match is listed by [ends]. *)
Lemma ends_complete r st st' :
  Matches r st st' -> In st' (ends r st).
Proof.
  induction 1.
  - now left.
  - destruct r; simpl in *; try discriminate;
      apply step_char_In; exists c, s; auto.
  - now left.
  - destruct H as [->| ->]; vm_compute; now left.
  - simpl. apply in_flat_map. eauto.
  - simpl. destruct g; [apply in_or_app; right; now left | now left].
  - simpl. destruct g; [apply in_or_app; now left | now right].
  - simpl. apply many_stop.
  - simpl in *. eapply many_complete_step; eauto.
    apply Matches_shape in H. destruct H as [->|[_ Hl]]; auto.
  - simpl in *. apply in_flat_map. eauto.
Qed.

Theorem ends_spec r st st' : In st' (ends r st) <-> Matches r st st'.
Proof. split; [apply ends_sound | apply ends_complete]. Qed.

Lemma re_match_true p s :
  re_match p s = true <->
  exists r st', compile p = Some r /\ Matches r (true, s) st'.
Proof.
  unfold re_match. destruct (compile p) as [r|].
  - destruct (ends r (true, s)) as [|st' l] eqn:E.
    + split; [discriminate|]. intros [r' [st' [Hc HM]]].
      inversion Hc; subst r'. apply ends_complete in HM. rewrite E in HM.
      destruct HM.
    + split; [intros _|reflexivity]. exists r, st'. split; [reflexivity|].
      apply ends_sound. rewrite E. now left.
  - split; [discriminate|]. intros [r [st' [Hc _]]]. discriminate.
Qed.

(** Every pattern of the script lies in the fragment that [compile]
    reads. *)
Lemma script_patterns_compile :
  Forall (fun p => compile p <> None)
         (["call r..?"; "call e.."; "pop {.*?, pc}"; "s[vw][ci] .*?";
           "bl?x? ..$"]
          ++ patterns_x86 ++ patterns_x64 ++ patterns_arm)%list.
Proof. repeat constructor; discriminate. Qed.

(** Without [$] a match does not look at what follows it. *)
Lemma Matches_extend t r st st' :
  Matches r st st' -> no_at_end r = true ->
  Matches r (extend t st) (extend t st').
Proof.
  induction 1; intros Hn; simpl in Hn; try discriminate;
    try (apply andb_prop in Hn; destruct Hn as [Hn1 Hn2]).
  - constructor.
  - unfold extend. simpl. now constructor.
  - constructor.
  - econstructor; eauto.
  - apply M_opt_skip.
  - apply M_opt_take. auto.
  - apply M_star_stop.
  - eapply M_star_more; eauto.
  - eapply M_plus; eauto.
Qed.

Lemma re_match_extend p r g t :
  compile p = Some r -> no_at_end r = true ->
  re_match p g = true -> re_match p (g ++ t) = true.
Proof.
  intros Hc Hn H. apply re_match_true in H.
  destruct H as [r' [st' [Hc' HM]]].
  rewrite Hc in Hc'. inversion Hc'; subst r'.
  apply re_match_true. exists r, (extend t st'). split; [assumption|].
  apply (Matches_extend t) in HM; assumption.
Qed.

(** Inversion of matches of concrete patterns. *)
Lemma Matches_seq_inv r1 r2 st st' :
  Matches (Seq r1 r2) st st' ->
  exists mid, Matches r1 st mid /\ Matches r2 mid st'.
Proof.
  intros H. inversion H; subst; [simpl in *; discriminate | eauto].
Qed.

Lemma Matches_literal_inv c st st' :
  Matches (Literal c) st st' ->
  exists s, snd st = String c s /\ st' = (false, s).
Proof.
  intros H. inversion H; subst. simpl in *.
  match goal with E : Ascii.eqb _ _ = true |- _ => apply Ascii.eqb_eq in E end.
  subst. eauto.
Qed.

Lemma Matches_in_inv cs st st' :
  Matches (In_ cs) st st' ->
  exists c s, In c cs /\ snd st = String c s /\ st' = (false, s).
Proof.
  intros H. inversion H; subst. simpl in *.
  match goal with E : existsb _ _ = true |- _ =>
    apply existsb_exists in E; destruct E as [x [Hin Hx]] end.
  apply Ascii.eqb_eq in Hx. subst. eauto.
Qed.

Lemma Matches_begin_inv st st' :
  Matches AtBeginning st st' -> fst st = true /\ st' = st.
Proof.
  intros H. inversion H; subst; [simpl in *; discriminate | auto].
Qed.

Lemma Matches_char_not_start r st st' :
  is_char r = true -> Matches r st st' -> fst st' = false.
Proof.
  intros Hc H. inversion H; subst; simpl in Hc; try discriminate. reflexivity.
Qed.


End ReFacts.

(* ================================================================== *)
(** * The tail classifier *)
(* ================================================================== *)

Module Classifier.
Import ReFacts.

Lemma check_end_x64 inst :
  check_end "x64" inst =
  (String.eqb "ret" inst || String.eqb "syscall" inst)
  || re_match "call r..?" inst.
Proof.
  unfold check_end. change (String.eqb "x64" "x64") with true. cbv iota.
  destruct (String.eqb "ret" inst || String.eqb "syscall" inst); simpl;
    [reflexivity|]. now destruct (re_match "call r..?" inst).
Qed.

Lemma check_end_x86 inst :
  check_end "x86" inst =
  (String.eqb "ret" inst || String.eqb "int 0x80" inst)
  || re_match "call e.." inst.
Proof.
  unfold check_end. change (String.eqb "x64" "x86") with false.
  change (String.eqb "x86" "x86") with true. cbv iota.
  destruct (String.eqb "ret" inst || String.eqb "int 0x80" inst); simpl;
    [reflexivity|]. now destruct (re_match "call e.." inst).
Qed.

Lemma check_end_arm inst :
  check_end "arm" inst =
  re_match "pop {.*?, pc}" inst
  || re_match "s[vw][ci] .*?" inst
  || re_match "bl?x? ..$" inst.
Proof.
  unfold check_end. change (String.eqb "x64" "arm") with false.
  change (String.eqb "x86" "arm") with false.
  change (String.eqb "arm" "arm") with true. cbv iota.
  destruct (re_match "pop {.*?, pc}" inst); simpl; [reflexivity|].
  destruct (re_match "s[vw][ci] .*?" inst); simpl; [reflexivity|].
  now destruct (re_match "bl?x? ..$" inst).
Qed.




End Classifier.

(* ================================================================== *)
(** * The gadget store and the scan *)
(* ================================================================== *)


Module Scan.

Lemma insts_eqb_eq a : forall b, insts_eqb a b = true <-> a = b.
Proof.
  induction a as [|x a IH]; intros [|y b]; simpl; split; intros H;
    try discriminate; try reflexivity.
  - apply andb_prop in H. destruct H as [Hx Hr].
    apply String.eqb_eq in Hx. apply IH in Hr. now subst.
  - inversion H; subst. rewrite String.eqb_refl. simpl. now apply IH.
Qed.

Lemma in_values_In v d : in_values v d = true <-> In v (values d).
Proof.
  unfold in_values. rewrite existsb_exists. split.
  - intros [x [Hin Hx]]. apply insts_eqb_eq in Hx. now subst.
  - intros H. exists v. split; [assumption|]. now apply insts_eqb_eq.
Qed.

Lemma in_values_false v d : in_values v d = false <-> ~ In v (values d).
Proof.
  rewrite <- in_values_In. destruct (in_values v d); split; intros H;
    congruence.
Qed.

Lemma In_values a v (d : dict) : In (a, v) d -> In v (values d).
Proof. intros H. apply (in_map snd) in H. exact H. Qed.

Lemma In_keys a v (d : dict) : In (a, v) d -> In a (keys d).
Proof. intros H. apply (in_map fst) in H. exact H. Qed.

Lemma dict_set_fresh d k v :
  ~ In k (keys d) -> dict_set d k v = (d ++ [(k, v)])%list.
Proof.
  induction d as [|[k' v'] d IH]; simpl; intros H; [reflexivity|].
  destruct (Z.eqb_spec k' k) as [E|E]; [exfalso; auto|].
  rewrite IH; auto.
Qed.

Lemma dict_set_In d k v k' v' :
  In (k', v') (dict_set d k v) -> (k' = k /\ v' = v) \/ In (k', v') d.
Proof.
  induction d as [|[k0 v0] d IH]; simpl.
  - intros [H|[]]. inversion H; auto.
  - destruct (Z.eqb_spec k0 k) as [E|E]; simpl.
    + intros [H|H]; [inversion H; auto | auto].
    + intros [H|H]; [auto|]. destruct (IH H); auto.
Qed.

Lemma dict_set_has d k v : In (k, v) (dict_set d k v).
Proof.
  induction d as [|[k0 v0] d IH]; simpl; [now left|].
  destruct (Z.eqb_spec k0 k); simpl; auto.
Qed.

Lemma dict_set_other d k v k' v' :
  In (k', v') d -> k' <> k -> In (k', v') (dict_set d k v).
Proof.
  induction d as [|[k0 v0] d IH]; simpl; [tauto|].
  intros [H|H] Hne.
  - inversion H; subst. destruct (Z.eqb_spec k' k); [contradiction|now left].
  - destruct (Z.eqb_spec k0 k); simpl; auto.
Qed.

(** ** The inner loop *)

Lemma collect_found arch dis :
  forall tmp out,
    collect arch dis tmp = (out, true) ->
    exists body tail,
      out = (tmp ++ body ++ [tail])%list /\
      check_end arch tail = true /\
      Forall (fun inst => check_end arch inst = false) body.
Proof.
  induction dis as [|d rest IH]; intros tmp out H; simpl in H.
  - discriminate.
  - destruct (check_end arch (inst_text d)) eqn:E.
    + inversion H; subst. exists [], (inst_text d). simpl. auto.
    + apply IH in H. destruct H as [body [tail [-> [Ht Hb]]]].
      exists (inst_text d :: body), tail. rewrite <- app_assoc. simpl. auto.
Qed.

Lemma candidate_tail_only self fc i insts :
  candidate self fc i = (insts, true) -> tail_only (arch self) insts.
Proof.
  unfold candidate. intros H. apply collect_found in H.
  destruct H as [body [tail [-> H]]]. exists body, tail. simpl. auto.
Qed.

(** ** One round of the outer loop *)

Lemma scan_offset_not_found self fc g i :
  snd (candidate self fc i) = false -> scan_offset self fc g i = g.
Proof.
  unfold scan_offset. destruct (candidate self fc i) as [tmp found].
  simpl. now intros ->.
Qed.

Lemma scan_offset_duplicate self fc g i tmp :
  candidate self fc i = (tmp, true) -> In tmp (values g) ->
  scan_offset self fc g i = g.
Proof.
  unfold scan_offset. intros -> H. simpl.
  apply in_values_In in H. now rewrite H.
Qed.

Lemma scan_offset_new self fc g i tmp :
  candidate self fc i = (tmp, true) -> ~ In tmp (values g) ->
  scan_offset self fc g i = dict_set g (va self + i)%Z tmp.
Proof.
  unfold scan_offset. intros -> H. simpl.
  apply in_values_false in H. now rewrite H.
Qed.

Lemma scan_offset_cases self fc g i :
  (scan_offset self fc g i = g /\
   (snd (candidate self fc i) = false \/
    exists tmp, candidate self fc i = (tmp, true) /\ In tmp (values g)))
  \/
  (exists tmp, candidate self fc i = (tmp, true) /\ ~ In tmp (values g) /\
               scan_offset self fc g i = dict_set g (va self + i)%Z tmp).
Proof.
  destruct (candidate self fc i) as [tmp [|]] eqn:E.
  - destruct (in_values tmp g) eqn:Hin.
    + left. apply in_values_In in Hin. split.
      * eapply scan_offset_duplicate; eauto.
      * right. eauto.
    + right. apply in_values_false in Hin. exists tmp.
      split; [reflexivity|]. split; [assumption|].
      now apply scan_offset_new.
  - left. split; [|now left]. apply scan_offset_not_found. now rewrite E.
Qed.

(** ** Where the entries of the store come from *)

Lemma scan_provenance self fc (all : list Z) g0 :
  forall l g,
    (forall i, In i l -> In i all) ->
    (forall a insts, In (a, insts) g ->
       In (a, insts) g0 \/
       exists i, In i all /\ a = (va self + i)%Z /\
                 candidate self fc i = (insts, true)) ->
    forall a insts, In (a, insts) (fold_left (scan_offset self fc) l g) ->
      In (a, insts) g0 \/
      exists i, In i all /\ a = (va self + i)%Z /\
                candidate self fc i = (insts, true).
Proof.
  induction l as [|i l IH]; intros g Hl Hg; simpl; [exact Hg|].
  apply IH; [intros j Hj; apply Hl; now right|].
  intros a insts Hin.
  destruct (scan_offset_cases self fc g i) as [[E _]|[tmp [Hc [_ E]]]];
    rewrite E in Hin; [auto|].
  apply dict_set_In in Hin. destruct Hin as [[-> ->]|Hin]; [|auto].
  right. exists i. split; [apply Hl; now left | auto].
Qed.

(** ** [range] with a positive step counts upwards *)

Lemma range_positive_sorted a b step l :
  (0 < step)%Z -> range a b step = Ok l -> StronglySorted Z.lt l.
Proof.
  unfold range. intros Hs.
  destruct (Z.eqb_spec step 0) as [|Hne]; [lia|].
  intros H. inversion H; subst; clear H.
  generalize (Z.to_nat
    (if (0 <? step)%Z then ((b - a + step - 1) / step)%Z
     else ((a - b - step - 1) / - step)%Z)).
  intros m. generalize 0%nat.
  induction m as [|m IH]; intros k; simpl; constructor.
  - apply IH.
  - apply Forall_forall. intros x Hx. apply in_map_iff in Hx.
    destruct Hx as [j [<- Hj]]. apply in_seq in Hj. nia.
Qed.

Lemma range_empty a b step l :
  (0 < step)%Z -> (b <= a)%Z -> range a b step = Ok l -> l = [].
Proof.
  unfold range. intros Hs Hle.
  destruct (Z.eqb_spec step 0); [lia|]. intros H. inversion H; subst; clear H.
  destruct (Z.ltb_spec 0 step); [|lia].
  assert (E : ((b - a + step - 1) / step <= 0)%Z).
  { apply Z.lt_succ_r. apply Z.div_lt_upper_bound; lia. }
  replace (Z.to_nat ((b - a + step - 1) / step)) with 0%nat by lia.
  reflexivity.
Qed.

Lemma range_total a b step :
  step <> 0%Z -> exists l, range a b step = Ok l.
Proof.
  unfold range. intros H. destruct (Z.eqb_spec step 0); [contradiction|].
  eauto.
Qed.

End Scan.

Module Dedup.
Import Scan.

Lemma sorted_before (l1 : list Z) x l2 :
  StronglySorted Z.lt (l1 ++ x :: l2) -> Forall (fun y => (y < x)%Z) l1.
Proof.
  induction l1 as [|y l1 IH]; simpl; intros H; [constructor|].
  inversion H; subst. constructor.
  - rewrite Forall_forall in H3. apply H3. apply in_or_app. right. now left.
  - auto.
Qed.

Section FirstOccurrence.

Variable self : ROP.
Variable fc : list byte.

Lemma first_kept_nil : first_kept self fc [] [].
Proof.
  repeat split.
  - constructor.
  - intros a insts [].
  - intros j insts [].
Qed.

Lemma first_kept_fresh_key seen g i :
  first_kept self fc seen g ->
  Forall (fun j => (j < i)%Z) seen ->
  ~ In (va self + i)%Z (keys g).
Proof.
  intros [_ [Hf _]] Hlt Hin. unfold keys in Hin.
  apply in_map_iff in Hin. destruct Hin as [[a insts] [Ea Hin]].
  simpl in Ea. subst a. apply Hf in Hin.
  destruct Hin as [i' [Hi' [E _]]].
  rewrite Forall_forall in Hlt. apply Hlt in Hi'. lia.
Qed.

Lemma first_kept_step seen g i :
  Forall (fun j => (j < i)%Z) seen ->
  first_kept self fc seen g ->
  first_kept self fc (seen ++ [i]) (scan_offset self fc g i).
Proof.
  intros Hlt Hinv.
  pose proof (first_kept_fresh_key Hinv Hlt) as Hfresh.
  destruct Hinv as [Hnd [Hf Hall]].
  rewrite Forall_forall in Hlt.
  destruct (scan_offset_cases self fc g i) as [[E Hc]|[tmp [Hc [Hnew E]]]];
    rewrite E; clear E.
  - (* nothing is stored *)
    split; [assumption|]. split.
    + intros a insts Hin. destruct (Hf _ _ Hin) as [i' [Hi' [Ea [Hci Hmin]]]].
      exists i'. split; [apply in_or_app; now left|].
      split; [assumption|]. split; [assumption|].
      intros j Hj Hcj. apply in_app_or in Hj. destruct Hj as [Hj|[<-|[]]].
      * auto.
      * apply Hlt in Hi'. lia.
    + intros j insts Hj Hcj. apply in_app_or in Hj.
      destruct Hj as [Hj|[<-|[]]]; [eauto|].
      destruct Hc as [Hc|[tmp [Hc Hin]]]; rewrite Hcj in Hc.
      * discriminate.
      * inversion Hc; subst. assumption.
  - (* a new content is stored under a new key *)
    rewrite dict_set_fresh by assumption.
    split; [|split].
    + unfold values. rewrite map_app. simpl.
      apply NoDup_app; [assumption | repeat constructor; intros [] |].
      intros x Hx [<-|[]]. contradiction.
    + intros a insts Hin. apply in_app_or in Hin.
      destruct Hin as [Hin|[Hin|[]]].
      * destruct (Hf _ _ Hin) as [i' [Hi' [Ea [Hci Hmin]]]].
        exists i'. split; [apply in_or_app; now left|].
        split; [assumption|]. split; [assumption|].
        intros j Hj Hcj. apply in_app_or in Hj. destruct Hj as [Hj|[<-|[]]].
        -- auto.
        -- apply Hlt in Hi'. lia.
      * inversion Hin; subst. exists i.
        split; [apply in_or_app; right; now left|].
        split; [reflexivity|]. split; [assumption|].
        intros j Hj Hcj. apply in_app_or in Hj. destruct Hj as [Hj|[<-|[]]].
        -- exfalso. apply Hnew. eauto.
        -- lia.
    + intros j insts Hj Hcj. unfold values. rewrite map_app.
      apply in_or_app. apply in_app_or in Hj. destruct Hj as [Hj|[<-|[]]].
      * left. eapply Hall; eauto.
      * right. rewrite Hcj in Hc. inversion Hc; subst. now left.
Qed.

Lemma first_kept_fold :
  forall l seen g,
    StronglySorted Z.lt (seen ++ l) ->
    first_kept self fc seen g ->
    first_kept self fc (seen ++ l) (fold_left (scan_offset self fc) l g).
Proof.
  induction l as [|i l IH]; intros seen g Hs Hinv; simpl.
  - now rewrite app_nil_r.
  - replace (seen ++ i :: l)%list with ((seen ++ [i]) ++ l)%list
      by (rewrite <- app_assoc; reflexivity).
    apply IH.
    + rewrite <- app_assoc. exact Hs.
    + apply first_kept_step; [|assumption]. eapply sorted_before; eauto.
Qed.

End FirstOccurrence.

End Dedup.

(* ================================================================== *)
(** * The interesting selector *)
(* ================================================================== *)

Module Selector.
Import Scan.

Lemma try_pattern_known a i s kp :
  in_values i (sel_interesting s) = true -> try_pattern a i s kp = s.
Proof.
  unfold try_pattern. intros ->. simpl. now rewrite andb_false_r.
Qed.

Lemma try_patterns_known a i kps :
  forall s, in_values i (sel_interesting s) = true ->
            fold_left (try_pattern a i) kps s = s.
Proof.
  induction kps as [|kp kps IH]; intros s H; simpl; [reflexivity|].
  rewrite try_pattern_known by assumption. auto.
Qed.

Lemma flag_known k a i s : in_values i (sel_interesting (flag k a i s)) = true.
Proof. apply in_values_In. simpl. eapply In_values. apply dict_set_has. Qed.

Lemma try_patterns_from a i patterns :
  forall k s,
    in_values i (sel_interesting s) = false ->
    fold_left (try_pattern a i)
              (combine (seq k (List.length patterns)) patterns) s =
    match first_match_from k patterns (String.concat "; " i) with
    | Some k' => flag k' a i s
    | None => s
    end.
Proof.
  induction patterns as [|p ps IH]; intros k s H; simpl; [reflexivity|].
  unfold try_pattern at 2. simpl. rewrite H. simpl.
  destruct (re_match p (String.concat "; " i)); simpl.
  - apply try_patterns_known. apply flag_known.
  - auto.
Qed.

(** The pass over the templates for one gadget: nothing if its content is
    already interesting; otherwise one [flag], by the first template that
    matches, if any does. *)
Lemma select_gadget_spec patterns s a i :
  select_gadget patterns s (a, i) =
  if in_values i (sel_interesting s) then s
  else match first_match patterns (String.concat "; " i) with
       | Some k => flag k a i s
       | None => s
       end.
Proof.
  unfold select_gadget, enumerate. simpl.
  destruct (in_values i (sel_interesting s)) eqn:E.
  - now apply try_patterns_known.
  - now apply try_patterns_from.
Qed.

Lemma first_match_from_spec patterns text :
  forall k0 k,
    first_match_from k0 patterns text = Some k ->
    (k0 <= k)%nat /\
    exists p, nth_error patterns (k - k0) = Some p /\
              re_match p text = true /\
              forall j p', (j < k - k0)%nat -> nth_error patterns j = Some p' ->
                           re_match p' text = false.
Proof.
  induction patterns as [|p ps IH]; intros k0 k H; simpl in H; [discriminate|].
  destruct (re_match p text) eqn:E.
  - inversion H; subst. split; [lia|]. rewrite Nat.sub_diag.
    exists p. simpl. split; [reflexivity|]. split; [assumption|].
    intros j p' Hj. lia.
  - apply IH in H. destruct H as [Hle [q [Hn [Hq Hbefore]]]].
    split; [lia|]. exists q.
    replace (k - k0)%nat with (S (k - S k0)) by lia. simpl.
    split; [assumption|]. split; [assumption|].
    intros [|j] p' Hj Hp'; simpl in Hp'.
    + inversion Hp'; subst. assumption.
    + eapply Hbefore; [|eassumption]. lia.
Qed.

Lemma first_match_spec patterns text k :
  first_match patterns text = Some k ->
  exists p, nth_error patterns k = Some p /\
            re_match p text = true /\
            forall j p', (j < k)%nat -> nth_error patterns j = Some p' ->
                         re_match p' text = false.
Proof.
  intros H. apply first_match_from_spec in H.
  rewrite Nat.sub_0_r in H. tauto.
Qed.

Lemma flagged_once_step patterns seen s a i :
  ~ In a (keys seen) ->
  flagged_once patterns seen s ->
  flagged_once patterns (seen ++ [(a, i)])%list (select_gadget patterns s (a, i)).
Proof.
  intros Hfresh [Hcalls Hnd].
  assert (Hweak : flagged_once patterns (seen ++ [(a, i)])%list s).
  { split; [|assumption]. intros k a' i' Hin.
    destruct (Hcalls _ _ _ Hin) as [H1 H2]. split; [|assumption].
    apply in_or_app. now left. }
  rewrite select_gadget_spec.
  destruct (in_values i (sel_interesting s)) eqn:Hk; [assumption|].
  destruct (first_match patterns (String.concat "; " i)) as [k|] eqn:Hm;
    [|assumption].
  apply in_values_false in Hk. split.
  - intros k' a' i' Hin. simpl in Hin. apply in_app_or in Hin.
    destruct Hin as [Hin|[Hin|[]]].
    + destruct (Hcalls _ _ _ Hin) as [H1 [H2 H3]].
      split; [apply in_or_app; now left|]. split; [|assumption].
      simpl. apply dict_set_other; [assumption|].
      intros ->. apply Hfresh. eapply In_keys; eauto.
    + inversion Hin; subst.
      split; [apply in_or_app; right; now left|].
      split; [apply dict_set_has | assumption].
  - simpl. rewrite map_app. simpl.
    apply NoDup_app; [assumption | repeat constructor; intros [] |].
    intros x Hx [<-|[]]. apply Hk.
    apply in_map_iff in Hx. destruct Hx as [[[k' a'] i'] [E Hin]].
    simpl in E. subst i'. destruct (Hcalls _ _ _ Hin) as [_ [H2 _]].
    eapply In_values; eauto.
Qed.

Lemma flagged_once_fold patterns :
  forall l seen s,
    NoDup (keys (seen ++ l)%list) ->
    flagged_once patterns seen s ->
    flagged_once patterns (seen ++ l)%list (fold_left (select_gadget patterns) l s).
Proof.
  induction l as [|[a i] l IH]; intros seen s Hnd Hinv; simpl.
  - now rewrite app_nil_r.
  - replace (seen ++ (a, i) :: l)%list with ((seen ++ [(a, i)]) ++ l)%list
      by (rewrite <- app_assoc; reflexivity).
    apply IH.
    + rewrite <- app_assoc. exact Hnd.
    + apply flagged_once_step; [|assumption].
      unfold keys in Hnd. rewrite map_app in Hnd. simpl in Hnd.
      apply NoDup_remove_2 in Hnd. intros Hin. apply Hnd.
      apply in_or_app. now left.
Qed.

Lemma flagged_once_all patterns gadgets interesting :
  NoDup (keys gadgets) ->
  flagged_once patterns gadgets (select_all patterns gadgets interesting).
Proof.
  intros Hnd. unfold select_all.
  apply flagged_once_fold with (seen := @nil (Z * list string)).
  - exact Hnd.
  - split; [intros k a i []|constructor].
Qed.

(** A call is always made by a template that matches the gadget's text,
    whatever the two dictionaries hold. *)
Lemma calls_match patterns :
  forall l s,
    (forall k a i, In (k, a, i) (sel_calls s) ->
       first_match patterns (String.concat "; " i) = Some k) ->
    forall k a i,
      In (k, a, i) (sel_calls (fold_left (select_gadget patterns) l s)) ->
      first_match patterns (String.concat "; " i) = Some k.
Proof.
  induction l as [|[a0 i0] l IH]; intros s Hs; simpl; [exact Hs|].
  apply IH. rewrite select_gadget_spec.
  destruct (in_values i0 (sel_interesting s)); [exact Hs|].
  destruct (first_match patterns (String.concat "; " i0)) as [k0|] eqn:E;
    [|exact Hs].
  intros k a i Hin. simpl in Hin. apply in_app_or in Hin.
  destruct Hin as [Hin|[Hin|[]]]; [eauto|]. inversion Hin; subst. assumption.
Qed.

(** [to_write] holds one line for each call, in order. *)
Lemma to_write_lines patterns :
  forall l s,
    sel_to_write s = lines_of_calls (sel_calls s) ->
    let s' := fold_left (select_gadget patterns) l s in
    sel_to_write s' = lines_of_calls (sel_calls s').
Proof.
  induction l as [|[a0 i0] l IH]; intros s Hs; simpl; [exact Hs|].
  apply IH. rewrite select_gadget_spec.
  destruct (in_values i0 (sel_interesting s)); [exact Hs|].
  destruct (first_match patterns (String.concat "; " i0)) as [k0|];
    [|exact Hs].
  simpl. unfold lines_of_calls. rewrite fold_left_app. simpl.
  fold (lines_of_calls (sel_calls s)). now rewrite Hs.
Qed.

End Selector.

(* ================================================================== *)
(** * Address formatting *)
(* ================================================================== *)

Module Format.

Lemma length_append (s t : string) :
  String.length (s ++ t) = (String.length s + String.length t)%nat.
Proof. induction s as [|c s IH]; simpl; [reflexivity | now rewrite IH]. Qed.

Lemma append_assoc (s t u : string) : (s ++ t) ++ u = s ++ (t ++ u).
Proof. induction s as [|c s IH]; simpl; [reflexivity | now rewrite IH]. Qed.

Lemma hex_digit_value_digit d :
  (0 <= d < 16)%Z -> hex_digit_value (hex_digit d) = Some d.
Proof.
  intros H.
  assert (E : (d = 0 \/ d = 1 \/ d = 2 \/ d = 3 \/ d = 4 \/ d = 5 \/ d = 6 \/
              d = 7 \/ d = 8 \/ d = 9 \/ d = 10 \/ d = 11 \/ d = 12 \/
              d = 13 \/ d = 14 \/ d = 15)%Z) by lia.
  repeat (destruct E as [->|E]; [reflexivity|]). subst. reflexivity.
Qed.

Lemma hex_value_from_app D E :
  forall v w, hex_value_from v D = Some w ->
              hex_value_from v (D ++ E) = hex_value_from w E.
Proof.
  induction D as [|c D IH]; simpl; intros v w H.
  - now inversion H.
  - destruct (hex_digit_value c); [eauto | discriminate].
Qed.

Lemma hex_loop_S f n acc :
  hex_loop (S f) n acc =
  if (n / 16 =? 0)%Z then String (hex_digit (n mod 16)) acc
  else hex_loop f (n / 16)%Z (String (hex_digit (n mod 16)) acc).
Proof. reflexivity. Qed.

Lemma hex_loop_value f :
  forall n acc,
    (0 <= n < 16 ^ Z.of_nat (S f))%Z ->
    exists D, hex_loop (S f) n acc = D ++ acc /\
              hex_value_from 0 D = Some n /\
              (1 <= String.length D)%nat.
Proof.
  induction f as [|f IH]; intros n acc Hn.
  - change (16 ^ Z.of_nat 1)%Z with 16%Z in Hn. simpl.
    assert (E : (n / 16 = 0)%Z) by (apply Z.div_small; lia).
    rewrite E. simpl. exists (String (hex_digit (n mod 16)) EmptyString).
    split; [reflexivity|]. split; [|simpl; lia].
    simpl. rewrite hex_digit_value_digit by (apply Z.mod_pos_bound; lia).
    f_equal. rewrite Z.mod_small; lia.
  - rewrite hex_loop_S. destruct (Z.eqb_spec (n / 16) 0) as [E|E].
    + exists (String (hex_digit (n mod 16)) EmptyString).
      split; [reflexivity|]. split; [|simpl; lia].
      simpl. rewrite hex_digit_value_digit by (apply Z.mod_pos_bound; lia).
      f_equal. pose proof (Z.div_mod n 16). lia.
    + assert (Hq : (0 <= n / 16 < 16 ^ Z.of_nat (S f))%Z).
      { split; [apply Z.div_pos; lia|].
        apply Z.div_lt_upper_bound; [lia|].
        replace (Z.of_nat (S (S f))) with (Z.succ (Z.of_nat (S f))) in Hn by lia.
        rewrite Z.pow_succ_r in Hn by lia. lia. }
      destruct (IH (n / 16)%Z (String (hex_digit (n mod 16)) acc) Hq)
        as [D [HD [Hv Hl]]].
      exists (D ++ String (hex_digit (n mod 16)) EmptyString).
      split; [|split].
      * rewrite HD. rewrite append_assoc. reflexivity.
      * rewrite hex_value_from_app with (w := (n / 16)%Z) by exact Hv.
        cbn [hex_value_from].
        rewrite hex_digit_value_digit by (apply Z.mod_pos_bound; lia).
        f_equal. pose proof (Z.div_mod n 16). lia.
      * rewrite length_append. lia.
Qed.

(** [hex] writes the number it is given. *)
Lemma hex_value_hex n :
  (0 <= n)%Z ->
  hex_value (hex n) = Some n /\ (1 <= String.length (hex n))%nat.
Proof.
  intros Hn. unfold hex, hex_value.
  assert (Hb : (0 <= n < 16 ^ Z.of_nat (S (Z.to_nat (Z.log2 n))))%Z).
  { split; [assumption|].
    pose proof (Z.log2_nonneg n) as Hl.
    replace (Z.of_nat (S (Z.to_nat (Z.log2 n)))) with (Z.succ (Z.log2 n))
      by lia.
    destruct (Z.eq_dec n 0) as [->|Hz].
    - reflexivity.
    - pose proof (Z.log2_spec n ltac:(lia)) as [_ Hlt].
      eapply Z.lt_le_trans; [exact Hlt|].
      apply Z.pow_le_mono_l. lia. }
  destruct (@hex_loop_value (Z.to_nat (Z.log2 n)) n EmptyString Hb)
    as [D [HD [Hv Hl]]].
  rewrite HD.
  assert (E : D ++ EmptyString = D).
  { clear. induction D as [|c D IH]; simpl; [reflexivity | now rewrite IH]. }
  rewrite E. auto.
Qed.

Lemma length_zeros k : String.length (zeros k) = k.
Proof. induction k as [|k IH]; simpl; [reflexivity | now rewrite IH]. Qed.

Lemma hex_value_zeros k D : hex_value (zeros k ++ D) = hex_value D.
Proof. induction k as [|k IH]; simpl; [reflexivity | exact IH]. Qed.

(** The shape of a formatted address that is not negative. *)
Lemma format_shape a :
  (0 <= a)%Z ->
  exists ds,
    format_hash08x a = "0x" ++ ds /\
    (6 <= String.length ds)%nat /\
    hex_value ds = Some a /\
    ((6 < String.length ds)%nat -> ds = hex a).
Proof.
  intros Ha. unfold format_hash08x.
  destruct (Z.ltb_spec a 0) as [|_]; [lia|].
  rewrite Z.abs_eq by assumption.
  destruct (hex_value_hex Ha) as [Hv Hl].
  change (String.length "") with 0%nat. cbn [Nat.add].
  exists (zeros (8 - (2 + String.length (hex a))) ++ hex a).
  split; [reflexivity|]. split; [|split].
  - rewrite length_append, length_zeros. lia.
  - now rewrite hex_value_zeros.
  - rewrite length_append, length_zeros. intros H.
    replace (8 - (2 + String.length (hex a)))%nat with 0%nat by lia.
    reflexivity.
Qed.

End Format.

(* ================================================================== *)
(** * The properties of the specification *)
(* ================================================================== *)

Import ReFacts Classifier Scan Dedup Selector Format.

Lemma find_gadgets_inv self fc self' out :
  find_gadgets self fc = Ok (self', out) ->
  exists offsets,
    range (start self) (end_ self + instruction_size self * 2)%Z
          (instruction_size self) = Ok offsets /\
    gadgets self' = fold_left (scan_offset self fc) offsets (gadgets self).
Proof.
  unfold find_gadgets. destruct (range _ _ _) as [offsets| |]; simpl;
    intros H; inversion H; subst. exists offsets. auto.
Qed.

Lemma collect_none arch dis :
  Forall (fun d => check_end arch (inst_text d) = false) dis ->
  forall tmp, snd (collect arch dis tmp) = false.
Proof.
  induction 1 as [|d dis Hd _ IH]; intros tmp; simpl; [reflexivity|].
  rewrite Hd. apply IH.
Qed.

Lemma scan_none self fc l :
  Forall (fun i => snd (candidate self fc i) = false) l ->
  forall g, fold_left (scan_offset self fc) l g = g.
Proof.
  induction 1 as [|i l Hi _ IH]; intros g; simpl; [reflexivity|].
  rewrite scan_offset_not_found by assumption. apply IH.
Qed.

(** C1.  Tail-only invariant of the gadget store: if every sequence in
    the store ends in a tail instruction and holds no earlier one, the
    same is true after [find_gadgets]; in particular, after a scan that
    starts from the empty store, [check_end] is true on the last
    instruction of every stored gadget and false on all the others, and
    no sequence without a tail is stored. *)
Theorem stored_gadgets_tail_only (self : ROP) (fc : list byte)
  (self' : ROP) (out : string) :
  (forall a insts, In (a, insts) (gadgets self) ->
                   tail_only (arch self) insts) ->
  find_gadgets self fc = Ok (self', out) ->
  forall a insts, In (a, insts) (gadgets self') ->
                  tail_only (arch self) insts.
Proof.
  intros H0 Hf a insts Hin.
  apply find_gadgets_inv in Hf. destruct Hf as [offsets [_ Hg]].
  rewrite Hg in Hin.
  apply (scan_provenance self fc offsets (gadgets self)) in Hin.
  - destruct Hin as [Hin|[i [_ [_ Hc]]]]; [exact (H0 _ _ Hin)|].
    eapply candidate_tail_only; eauto.
  - auto.
  - auto.
Qed.

Lemma stored_gadgets_tail_only_witness :
  tail_only "x64" ["pop rax"; "ret"].
Proof.
  apply (@stored_gadgets_tail_only (Demo.x64_self 4096 3) Demo.twice
           (set_gadgets (Demo.x64_self 4096 3)
                        [(4096%Z, ["pop rax"; "ret"]); (4097%Z, ["ret"])])
           (snd (match find_gadgets (Demo.x64_self 4096 3) Demo.twice with
                 | Ok r => r
                 | _ => (Demo.x64_self 4096 3, EmptyString)
                 end))
           ltac:(intros a insts [])
           ltac:(vm_compute; reflexivity)
           4096%Z ["pop rax"; "ret"]
           ltac:(vm_compute; left; reflexivity)).
Defined.

(** C2.  The store is deduplicated on the instruction sequence: a
    candidate whose sequence is already among the stored values leaves
    the store as it is, whatever its address; and after a scan from the
    empty store no sequence is stored twice, every stored sequence sits
    under the least offset of the range that yields it, and every
    terminated candidate of the range is in the store. *)
Theorem dedup_keeps_first_occurrence (self : ROP) (fc : list byte) :
  (forall g i tmp,
     candidate self fc i = (tmp, true) -> In tmp (values g) ->
     scan_offset self fc g i = g) /\
  (forall self' out offsets,
     gadgets self = [] ->
     (0 < instruction_size self)%Z ->
     range (start self) (end_ self + instruction_size self * 2)%Z
           (instruction_size self) = Ok offsets ->
     find_gadgets self fc = Ok (self', out) ->
     first_kept self fc offsets (gadgets self')).
Proof.
  split.
  - intros g i tmp Hc Hin. eapply scan_offset_duplicate; eauto.
  - intros self' out offsets Hnil Hstep Hr Hf.
    apply find_gadgets_inv in Hf. destruct Hf as [offsets' [Hr' Hg]].
    rewrite Hr in Hr'. inversion Hr'; subst offsets'. rewrite Hg, Hnil.
    apply first_kept_fold with (seen := @nil Z).
    + simpl. eapply range_positive_sorted; eauto.
    + apply first_kept_nil.
Qed.

Lemma dedup_keeps_first_occurrence_witness :
  scan_offset (Demo.x64_self 4096 3) Demo.twice
              [(4096%Z, ["pop rax"; "ret"])] 3%Z
  = [(4096%Z, ["pop rax"; "ret"])] /\
  first_kept (Demo.x64_self 4096 3) Demo.twice [0; 1; 2; 3; 4]%Z
             [(4096%Z, ["pop rax"; "ret"]); (4097%Z, ["ret"])].
Proof.
  split.
  - apply (proj1 (dedup_keeps_first_occurrence (Demo.x64_self 4096 3)
                    Demo.twice)) with (tmp := ["pop rax"; "ret"]).
    + vm_compute. reflexivity.
    + vm_compute. left. reflexivity.
  - apply (proj2 (dedup_keeps_first_occurrence (Demo.x64_self 4096 3)
                    Demo.twice)
             (set_gadgets (Demo.x64_self 4096 3)
                          [(4096%Z, ["pop rax"; "ret"]); (4097%Z, ["ret"])])
             (snd (match find_gadgets (Demo.x64_self 4096 3) Demo.twice with
                   | Ok r => r
                   | _ => (Demo.x64_self 4096 3, EmptyString)
                   end))
             [0; 1; 2; 3; 4]%Z).
    + reflexivity.
    + simpl. lia.
    + vm_compute. reflexivity.
    + vm_compute. reflexivity.
Defined.

(** C3.  Completeness on a crafted buffer: on x64 with [start = 0],
    [end = 15] and step 1, when the window at offset 10 decodes to a
    [ret] first and no window at another offset of the range decodes to
    a tail instruction, the scan from the empty store leaves exactly one
    gadget, under the address [va + 10], with the instructions [ret]. *)
Theorem lone_ret_scan (self : ROP) (fc : list byte) :
  arch self = "x64" ->
  start self = 0%Z -> end_ self = 15%Z -> instruction_size self = 1%Z ->
  gadgets self = [] ->
  (exists rest,
     dis_engine self (slice fc 10 30) (va self + 10)%Z
     = mkInsn "ret" "" :: rest) ->
  (forall i, (0 <= i < 17)%Z -> i <> 10%Z ->
     Forall (fun d => check_end "x64" (inst_text d) = false)
            (dis_engine self (slice fc i (i + 20)) (va self + i)%Z)) ->
  exists self' out,
    find_gadgets self fc = Ok (self', out) /\
    gadgets self' = [((va self + 10)%Z, ["ret"])].
Proof.
  intros Ha Hs He Hz Hg [rest H10] Hoth.
  assert (Hnone : forall i, (0 <= i < 17)%Z -> i <> 10%Z ->
                            snd (candidate self fc i) = false).
  { intros i Hi Hne. unfold candidate. rewrite Ha.
    apply collect_none. auto. }
  assert (Hc10 : candidate self fc 10 = (["ret"], true)).
  { unfold candidate. change (10 + 20)%Z with 30%Z. rewrite H10, Ha.
    reflexivity. }
  unfold find_gadgets. rewrite Hs, He, Hz, Hg.
  change (range 0 (15 + 1 * 2) 1)
    with (Ok (([0; 1; 2; 3; 4; 5; 6; 7; 8; 9] ++ [10])
              ++ [11; 12; 13; 14; 15; 16])%Z%list).
  cbn [bind]. do 2 eexists. split; [reflexivity|].
  cbn [set_gadgets gadgets]. rewrite !fold_left_app.
  rewrite scan_none with (l := [0; 1; 2; 3; 4; 5; 6; 7; 8; 9]%Z)
    by (repeat (constructor; [apply Hnone; lia|]); constructor).
  rewrite scan_none with (l := [11; 12; 13; 14; 15; 16]%Z)
    by (repeat (constructor; [apply Hnone; lia|]); constructor).
  cbn [fold_left].
  rewrite scan_offset_new with (tmp := ["ret"]) by (assumption || intros []).
  reflexivity.
Qed.

Lemma lone_ret_scan_witness :
  exists self' out,
    find_gadgets (Demo.x64_self 4198400 15) Demo.lone_ret = Ok (self', out) /\
    gadgets self' = [(4198410%Z, ["ret"])].
Proof.
  apply (@lone_ret_scan (Demo.x64_self 4198400 15) Demo.lone_ret);
    try reflexivity.
  - exists []. reflexivity.
  - intros i Hi Hne.
    assert (E : (i = 0 \/ i = 1 \/ i = 2 \/ i = 3 \/ i = 4 \/ i = 5 \/ i = 6 \/
                 i = 7 \/ i = 8 \/ i = 9 \/ i = 11 \/ i = 12 \/ i = 13 \/
                 i = 14 \/ i = 15 \/ i = 16)%Z) by lia.
    repeat (destruct E as [->|E]; [vm_compute; constructor|]).
    subst. vm_compute. constructor.
Defined.

(** C4 as stated does not hold of every template: the arm template
    [^bl?x? ...?$] ends in [$].  It matches the text [bx r10], but not
    the text of the arm gadget [bx r10; pop {r4, pc}], which begins
    with it; the selector passes that gadget by. *)
Lemma end_anchored_template_counterexample :
  In "^bl?x? ...?$" patterns_arm /\
  re_match "^bl?x? ...?$" "bx r10" = true /\
  re_match "^bl?x? ...?$" ("bx r10" ++ "; pop {r4, pc}") = false /\
  check_end "arm" "bx r10" = false /\
  check_end "arm" "pop {r4, pc}" = true /\
  sel_calls (select_all patterns_arm
                        [(4096%Z, ["bx r10"; "pop {r4, pc}"])] []) = [].
Proof.
  split; [right; left; reflexivity|].
  repeat split; vm_compute; reflexivity.
Qed.

(** C4, amended.  Every template but the end-anchored arm template
    [^bl?x? ...?$] is matched against a prefix of the gadget text: if it
    matches a text, it matches every text that begins with that text,
    whatever instructions follow. *)
Theorem template_prefix_match (p : string) :
  In p (patterns_x86 ++ patterns_x64 ++ patterns_arm)%list ->
  p <> "^bl?x? ...?$" ->
  forall g t, re_match p g = true -> re_match p (g ++ t) = true.
Proof.
  intros Hin Hne g t H. simpl in Hin.
  repeat (destruct Hin as [<-|Hin];
          [first [ exfalso; apply Hne; reflexivity
                 | eapply re_match_extend;
                   [reflexivity | reflexivity | exact H] ] |]).
  destruct Hin.
Qed.

Lemma template_prefix_match_witness :
  re_match "^(pop e..; )jmp e.." ("pop eax; jmp ebx" ++ "; pop ecx; ret")
  = true.
Proof.
  apply (@template_prefix_match "^(pop e..; )jmp e..").
  - right; left; reflexivity.
  - discriminate.
  - vm_compute. reflexivity.
Defined.

(** C5.  A gadget is flagged at most once.  The pass over the templates
    for one gadget does nothing when the gadget's content is already
    among the interesting gadgets; otherwise it flags the gadget once,
    for the first template in list order that matches, and no later
    template flags it again.  Over a whole store (a dictionary, so with
    distinct keys) every call of [make_function] is for the first
    matching template of a stored gadget and no content is passed
    twice. *)
Theorem interesting_flagged_once (patterns : list string) :
  (forall s a i,
     select_gadget patterns s (a, i) =
     if in_values i (sel_interesting s) then s
     else match first_match patterns (String.concat "; " i) with
          | Some k => flag k a i s
          | None => s
          end) /\
  (forall gadgets interesting,
     NoDup (keys gadgets) ->
     flagged_once patterns gadgets (select_all patterns gadgets interesting)).
Proof.
  split.
  - intros s a i. apply select_gadget_spec.
  - intros gadgets interesting Hnd. now apply flagged_once_all.
Qed.

Lemma interesting_flagged_once_witness :
  flagged_once patterns_x64
    [(4096%Z, ["pop rax"; "ret"]); (4097%Z, ["ret"]); (4200%Z, ["ret"])]
    (select_all patterns_x64
       [(4096%Z, ["pop rax"; "ret"]); (4097%Z, ["ret"]); (4200%Z, ["ret"])]
       []).
Proof.
  apply (proj2 (interesting_flagged_once patterns_x64)).
  simpl. repeat constructor; simpl; intuition discriminate.
Defined.



Lemma x86_first_template_never_matches g :
  re_match ("^(pop e..; )*ret" ++ "^(pop e..; )call e..") g = false.
Proof.
  destruct (re_match _ g) eqn:E; [exfalso|reflexivity].
  apply re_match_true in E. destruct E as [r [st' [Hc HM]]].
  vm_compute in Hc. inversion Hc; subst r; clear Hc.
  apply Matches_seq_inv in HM. destruct HM as [m1 [_ HM]].
  apply Matches_seq_inv in HM. destruct HM as [m2 [_ HM]].
  apply Matches_seq_inv in HM. destruct HM as [m3 [_ HM]].
  apply Matches_seq_inv in HM. destruct HM as [m4 [_ HM]].
  apply Matches_seq_inv in HM. destruct HM as [m5 [Ht HM]].
  apply Matches_seq_inv in HM. destruct HM as [m6 [Hb _]].
  apply Matches_literal_inv in Ht. destruct Ht as [s [_ ->]].
  apply Matches_begin_inv in Hb. destruct Hb as [Hb _]. discriminate.
Qed.

(** C9.  The first element of the x86 template list is the two literals
    [^(pop e..; )*ret] and [^(pop e..; )call e..] joined into one (the
    list has three elements, neither literal is one of them); the [^] in
    the middle can never hold after [ret], so this element matches no
    text at all, and on x86 [make_function] is only ever called for the
    second or the third element. *)
Theorem x86_first_template_dead :
  nth 0 patterns_x86 "" = "^(pop e..; )*ret" ++ "^(pop e..; )call e.." /\
  nth 0 patterns_x86 "" = "^(pop e..; )*ret^(pop e..; )call e.." /\
  List.length patterns_x86 = 3%nat /\
  ~ In "^(pop e..; )*ret" patterns_x86 /\
  ~ In "^(pop e..; )call e.." patterns_x86 /\
  (forall g, re_match (nth 0 patterns_x86 "") g = false) /\
  (forall gadgets interesting k a i,
     In (k, a, i) (sel_calls (select_all patterns_x86 gadgets interesting)) ->
     k = 1%nat \/ k = 2%nat).
Proof.
  split; [reflexivity|]. split; [reflexivity|]. split; [reflexivity|].
  split; [simpl; intuition discriminate|].
  split; [simpl; intuition discriminate|].
  split; [intros g; apply x86_first_template_never_matches|].
  intros gadgets interesting k a i Hin.
  unfold select_all in Hin. apply calls_match in Hin; [|intros ? ? ? []].
  apply first_match_spec in Hin. destruct Hin as [p [Hn [Hm _]]].
  destruct k as [|[|[|k]]]; auto.
  - simpl in Hn. inversion Hn; subst p.
    rewrite x86_first_template_never_matches in Hm. discriminate.
  - destruct k; discriminate.
Qed.

Lemma x86_first_template_dead_witness : (1 = 1 \/ 1 = 2)%nat.
Proof.
  apply (proj2 (proj2 (proj2 (proj2 (proj2 (proj2 x86_first_template_dead)))))
           [(4096%Z, ["pop eax"; "jmp ebx"; "ret"])] [] 1%nat 4096%Z
           ["pop eax"; "jmp ebx"; "ret"]).
  vm_compute. left. reflexivity.
Defined.

(** C6 as stated fails: the field width 8 of [#08x] counts the [0x]
    prefix, so the address 0x1234 is printed with six digits. *)
Lemma address_six_digits_counterexample :
  gadgets_to_write [(4660%Z, ["ret"])]
  = "0x001234: ret" ++ String newline EmptyString /\
  ~ (exists ds, format_hash08x 4660 = "0x" ++ ds /\
                (8 <= String.length ds)%nat).
Proof.
  split; [vm_compute; reflexivity|].
  intros [ds [E Hl]]. vm_compute in E. inversion E; subst ds.
  simpl in Hl. lia.
Qed.

(** C6, amended.  Every line of the report, in both sections, begins
    with the address in lowercase hexadecimal behind the prefix [0x],
    padded with zeros to at least 6 digits (8 characters with the
    prefix); a longer address is printed with exactly its own digits.
    The lines of the interesting section are the lines of the calls of
    [make_function]. *)
Theorem address_format :
  (forall a text,
     (0 <= a)%Z ->
     exists ds,
       report_line a text
       = "0x" ++ ds ++ ": " ++ text ++ String newline EmptyString /\
       (6 <= String.length ds)%nat /\
       hex_value ds = Some a /\
       ((6 < String.length ds)%nat -> ds = hex a)) /\
  (forall patterns gadgets interesting,
     let s := select_all patterns gadgets interesting in
     sel_to_write s = lines_of_calls (sel_calls s)).
Proof.
  split.
  - intros a text Ha. destruct (format_shape Ha) as [ds [E [Hl [Hv Hm]]]].
    exists ds. split; [|auto]. unfold report_line. rewrite E.
    rewrite append_assoc. reflexivity.
  - intros patterns gadgets interesting. unfold select_all.
    apply to_write_lines. reflexivity.
Qed.

Lemma address_format_witness :
  exists ds,
    report_line 4198410 "ret"
    = "0x" ++ ds ++ ": " ++ "ret" ++ String newline EmptyString /\
    (6 <= String.length ds)%nat /\
    hex_value ds = Some 4198410%Z /\
    ((6 < String.length ds)%nat -> ds = hex 4198410).
Proof.
  apply (proj1 address_format 4198410%Z "ret"). lia.
Defined.

Lemma find_gadgets_total self fc :
  instruction_size self <> 0%Z ->
  exists self' out,
    find_gadgets self fc = Ok (self', out) /\
    arch self' = arch self /\ start self' = start self /\
    end_ self' = end_ self /\ instruction_size self' = instruction_size self /\
    pattern self' = pattern self /\
    interesting_gadget self' = interesting_gadget self /\
    ((0 < instruction_size self)%Z ->
     (end_ self + instruction_size self * 2 <= start self)%Z ->
     gadgets self' = gadgets self).
Proof.
  intros Hz. unfold find_gadgets.
  destruct (range_total (start self)
              (end_ self + instruction_size self * 2)%Z Hz) as [l Hl].
  rewrite Hl. cbn [bind]. do 2 eexists. split; [reflexivity|].
  repeat (split; [reflexivity|]).
  intros Hpos Hle. cbn [set_gadgets gadgets].
  rewrite (range_empty Hpos Hle Hl). reflexivity.
Qed.

Lemma check_interesting_fields self file :
  let r := fst (fst (check_interesting self file)) in
  start r = start self /\ end_ r = end_ self /\
  instruction_size r = instruction_size self /\ gadgets r = gadgets self.
Proof.
  unfold check_interesting. destruct (pattern self); simpl; auto.
Qed.

Lemma set_mode_supported Cs a :
  In a ["x64"; "x86"; "arm"; "aarch64"] ->
  exists eng size pats,
    set_mode Cs a = Ok (eng, size, pats) /\ (size = 1 \/ size = 4)%Z.
Proof.
  simpl. intros [<-|[<-|[<-|[<-|[]]]]]; do 3 eexists;
    (split; [reflexivity|]); auto.
Qed.

Lemma set_mode_unsupported Cs a :
  ~ In a ["x64"; "x86"; "arm"; "aarch64"] -> set_mode Cs a = Exit 1.
Proof.
  intros H. unfold set_mode.
  destruct (String.eqb_spec "x64" a) as [E|_]; [exfalso; apply H; simpl; auto|].
  destruct (String.eqb_spec "x86" a) as [E|_]; [exfalso; apply H; simpl; auto|].
  destruct (String.eqb_spec "arm" a) as [E|_]; [exfalso; apply H; simpl; auto|].
  destruct (String.eqb_spec "aarch64" a) as [E|_];
    [exfalso; apply H; simpl; auto|].
  reflexivity.
Qed.

(** C7 as stated fails: with [.text] at file offset 0x1000 and the next
    section at 0x800 the start lies behind the end, and the run ends
    normally with an empty store and a report of 0 gadgets; with start 1
    and end 0 the offset 1 is even scanned and its gadget stored. *)
Lemma reversed_range_counterexample :
  (exists self',
     main Demo.toy_Cs Demo.no_settings
          (Demo.elf_at 4198400 4096 2048 "x86-64") Demo.twice
     = Ok (self', "0 gadgets found" ++ String newline EmptyString, []) /\
     start self' = 4096%Z /\ end_ self' = 2048%Z /\ gadgets self' = []) /\
  (exists self' out calls,
     main Demo.toy_Cs Demo.no_settings
          (Demo.elf_at 4097 1 0 "x86-64") Demo.twice
     = Ok (self', out, calls) /\
     start self' = 1%Z /\ end_ self' = 0%Z /\
     gadgets self' = [(4097%Z, ["ret"])]).
Proof.
  split.
  - eexists. split; [vm_compute; reflexivity|]. repeat split.
  - do 3 eexists. split; [vm_compute; reflexivity|]. repeat split.
Qed.

(** C7, amended.  No check compares the start of the code range with
    its end.  For a supported architecture and offsets taken from
    [readelf], the run ends normally whatever their order; the offsets
    are used as given, and when the start is not below the end plus two
    steps the range is empty and the store stays empty.  The fatal
    configuration error of [set_mode] is an unsupported architecture,
    which exits with status 1 before any scan. *)
Theorem reversed_range_not_rejected (Cs : cs_arch -> cs_mode -> engine)
  (cfg : settings) (elf : readelf) (fc : list byte) (a : string) :
  set_arch cfg elf = Ok a ->
  (In a ["x64"; "x86"; "arm"; "aarch64"] ->
   set_start_attr cfg = None ->
   exists self' out calls,
     main Cs cfg elf fc = Ok (self', out, calls) /\
     start self' = snd (text_section elf) /\
     end_ self' = next_section elf /\
     ((end_ self' + instruction_size self' * 2 <= start self')%Z ->
      gadgets self' = [])) /\
  (~ In a ["x64"; "x86"; "arm"; "aarch64"] ->
   main Cs cfg elf fc = Exit 1).
Proof.
  intros Ha. split.
  - intros Hin Hs.
    destruct (@set_mode_supported Cs a Hin) as [eng [size [pats [Hm Hsz]]]].
    unfold main, init. rewrite Ha. cbn [bind]. rewrite Hm. cbn [bind].
    unfold set_offsets. rewrite Hs.
    destruct (text_section elf) as [va0 start0] eqn:Et. cbn [bind snd].
    set (self := mkROP a start0 (next_section elf) (va0 - start0)%Z eng size
                       pats [] []).
    unfold initialize.
    destruct (@find_gadgets_total self fc) as
      [self1 [out [Hf [_ [Hst [Hen [Hsi [_ [_ Hg]]]]]]]]].
    { simpl. lia. }
    rewrite Hf. cbn [bind fst snd].
    pose proof (check_interesting_fields self1 out) as Hci.
    destruct (check_interesting self1 out) as [[self2 out2] calls].
    cbn [fst] in Hci. destruct Hci as [C1 [C2 [C3 C4]]].
    exists self2, out2, calls. split; [reflexivity|].
    rewrite C1, C2, C3, C4, Hst, Hen, Hsi.
    split; [reflexivity|]. split; [reflexivity|].
    intros Hle. apply Hg; simpl in *; lia.
  - intros Hn. unfold main, init. rewrite Ha. cbn [bind].
    rewrite (@set_mode_unsupported Cs a Hn). reflexivity.
Qed.

Lemma reversed_range_not_rejected_witness :
  exists self' out calls,
    main Demo.toy_Cs Demo.no_settings
         (Demo.elf_at 4198400 4096 2048 "x86-64") Demo.twice
    = Ok (self', out, calls) /\
    start self' = 4096%Z /\ end_ self' = 2048%Z /\
    ((end_ self' + instruction_size self' * 2 <= start self')%Z ->
     gadgets self' = []).
Proof.
  apply (proj1 (@reversed_range_not_rejected Demo.toy_Cs Demo.no_settings
                  (Demo.elf_at 4198400 4096 2048 "x86-64") Demo.twice "x64"
                  ltac:(vm_compute; reflexivity))).
  - left. reflexivity.
  - reflexivity.
Defined.



(* ================================================================== *)
(** * What each classifier accepts *)
(* ================================================================== *)

Module Shapes.

(** ** Building and taking apart matches of concrete patterns *)

Lemma Matches_lit_cons c r b s st' :
  Matches r (false, s) st' -> Matches (Seq (Literal c) r) (b, String c s) st'.
Proof.
  intros H. eapply M_seq; [|exact H]. constructor; [reflexivity|].
  simpl. apply Ascii.eqb_refl.
Qed.

Lemma Matches_any_cons r b c s st' :
  c <> newline ->
  Matches r (false, s) st' -> Matches (Seq Any r) (b, String c s) st'.
Proof.
  intros Hc H. eapply M_seq; [|exact H]. constructor; [reflexivity|].
  simpl. destruct (Ascii.eqb_spec c newline); [contradiction|reflexivity].
Qed.

Lemma Matches_in_cons cs r b c s st' :
  In c cs ->
  Matches r (false, s) st' -> Matches (Seq (In_ cs) r) (b, String c s) st'.
Proof.
  intros Hc H. eapply M_seq; [|exact H]. constructor; [reflexivity|].
  simpl. apply existsb_exists. exists c. split; [assumption|].
  apply Ascii.eqb_refl.
Qed.

Lemma Matches_opt_skip_seq g r1 r st st' :
  Matches r st st' -> Matches (Seq (Repeat Opt g r1) r) st st'.
Proof. intros H. eapply M_seq; [apply M_opt_skip | exact H]. Qed.

Lemma Matches_opt_lit_cons g c r b s st' :
  Matches r (false, s) st' ->
  Matches (Seq (Repeat Opt g (Literal c)) r) (b, String c s) st'.
Proof.
  intros H. eapply M_seq; [|exact H]. apply M_opt_take.
  constructor; [reflexivity|]. simpl. apply Ascii.eqb_refl.
Qed.

Lemma re_match_intro p r s st' :
  compile p = Some r -> Matches r (true, s) st' -> re_match p s = true.
Proof. intros Hc HM. apply re_match_true. eauto. Qed.

Lemma re_match_elim p r s :
  compile p = Some r -> re_match p s = true ->
  exists st', Matches r (true, s) st'.
Proof.
  intros Hc H. apply re_match_true in H. destruct H as [r' [st' [Hc' HM]]].
  rewrite Hc in Hc'. inversion Hc'; subst. eauto.
Qed.

Lemma Matches_lit_seq_inv c r st st' :
  Matches (Seq (Literal c) r) st st' ->
  exists s, snd st = String c s /\ Matches r (false, s) st'.
Proof.
  intros H. apply Matches_seq_inv in H. destruct H as [mid [H1 H2]].
  apply Matches_literal_inv in H1. destruct H1 as [s [E ->]]. eauto.
Qed.

Lemma Matches_any_inv st st' :
  Matches Any st st' ->
  exists c s, snd st = String c s /\ c <> newline /\ st' = (false, s).
Proof.
  intros H. inversion H; subst. simpl in *. exists c, s.
  split; [reflexivity|]. split; [|reflexivity].
  destruct (Ascii.eqb_spec c newline); [discriminate|assumption].
Qed.

Lemma Matches_any_seq_inv r st st' :
  Matches (Seq Any r) st st' ->
  exists c s, snd st = String c s /\ c <> newline /\ Matches r (false, s) st'.
Proof.
  intros H. apply Matches_seq_inv in H. destruct H as [mid [H1 H2]].
  apply Matches_any_inv in H1. destruct H1 as [c [s [E [Hc ->]]]]. eauto.
Qed.

Lemma Matches_in_seq_inv cs r st st' :
  Matches (Seq (In_ cs) r) st st' ->
  exists c s, In c cs /\ snd st = String c s /\ Matches r (false, s) st'.
Proof.
  intros H. apply Matches_seq_inv in H. destruct H as [mid [H1 H2]].
  apply Matches_in_inv in H1. destruct H1 as [c [s [Hc [E ->]]]]. eauto.
Qed.

Lemma Matches_opt_inv g r st st' :
  Matches (Repeat Opt g r) st st' -> st' = st \/ Matches r st st'.
Proof.
  intros H. inversion H; subst; [simpl in *; discriminate | auto | auto].
Qed.

Lemma Matches_opt_seq_inv g r1 r st st' :
  Matches (Seq (Repeat Opt g r1) r) st st' ->
  Matches r st st' \/ Matches (Seq r1 r) st st'.
Proof.
  intros H. apply Matches_seq_inv in H. destruct H as [mid [H1 H2]].
  apply Matches_opt_inv in H1. destruct H1 as [->|H1]; [now left|right].
  econstructor; eauto.
Qed.

Lemma Matches_end_inv st st' :
  Matches AtEnd st st' ->
  snd st = EmptyString \/ snd st = String newline EmptyString.
Proof.
  intros H. inversion H; subst; [simpl in *; discriminate | auto].
Qed.

(** A run of [.] consumes a stretch of text without newline. *)
Lemma Matches_star_any_inv g st st' :
  Matches (Repeat Star g Any) st st' ->
  exists mid, snd st = mid ++ snd st' /\ no_newline mid = true.
Proof.
  intros H. remember (Repeat Star g Any) as r eqn:Er.
  induction H; inversion Er; subst; try (simpl in *; discriminate).
  - exists EmptyString. auto.
  - destruct (IHMatches2 eq_refl) as [mid [E Hn]].
    apply Matches_any_inv in H. destruct H as [c [s [E1 [Hc ->]]]].
    simpl in E. exists (String c mid). split.
    + rewrite E1. simpl. now rewrite E.
    + simpl. rewrite Hn.
      destruct (Ascii.eqb_spec c newline); [contradiction|reflexivity].
Qed.

Lemma Matches_star_any_intro g mid :
  no_newline mid = true ->
  forall b s, exists b', Matches (Repeat Star g Any) (b, mid ++ s) (b', s).
Proof.
  induction mid as [|c mid IH]; intros Hn b s; simpl in *.
  - exists b. apply M_star_stop.
  - apply andb_prop in Hn. destruct Hn as [Hc Hn].
    destruct (IH Hn false s) as [b' HM]. exists b'.
    eapply M_star_more; [|exact HM]. constructor; [reflexivity|exact Hc].
Qed.

Ltac take_lit H :=
  let s := fresh "s" in let E := fresh "E" in
  apply Matches_lit_seq_inv in H; destruct H as [s [E H]];
  simpl in E; subst.

Ltac take_any H c Hc :=
  let s := fresh "s" in let E := fresh "E" in
  apply Matches_any_seq_inv in H; destruct H as [c [s [E [Hc H]]]];
  simpl in E; subst.

Ltac open_match H :=
  let r := fresh "r" in let st' := fresh "st'" in let Hc := fresh "Hc" in
  apply re_match_true in H; destruct H as [r [st' [Hc H]]];
  vm_compute in Hc; inversion Hc; subst r; clear Hc.

(** ** The patterns of [check_end] *)

Lemma call_r_shape inst :
  re_match "call r..?" inst = true <->
  exists c rest, inst = "call r" ++ String c rest /\ c <> newline.
Proof.
  split.
  - intros H. open_match H.
    do 6 take_lit H. take_any H c Hc. exists c. eexists.
    split; [reflexivity|assumption].
  - intros [c [rest [-> Hc]]]. eapply re_match_intro; [reflexivity|].
    simpl. do 6 apply Matches_lit_cons. apply Matches_any_cons; [exact Hc|].
    apply Matches_opt_skip_seq. constructor.
Qed.

Lemma call_e_shape inst :
  re_match "call e.." inst = true <->
  exists c1 c2 rest,
    inst = "call e" ++ String c1 (String c2 rest) /\
    c1 <> newline /\ c2 <> newline.
Proof.
  split.
  - intros H. open_match H.
    do 6 take_lit H. take_any H c1 Hc1. take_any H c2 Hc2.
    exists c1, c2. eexists. split; [reflexivity|auto].
  - intros [c1 [c2 [rest [-> [H1 H2]]]]].
    eapply re_match_intro; [reflexivity|].
    simpl. do 6 apply Matches_lit_cons.
    do 2 (apply Matches_any_cons; [assumption|]). constructor.
Qed.

Lemma pop_pc_shape inst :
  re_match "pop {.*?, pc}" inst = true <->
  exists mid rest,
    inst = "pop {" ++ mid ++ ", pc}" ++ rest /\ no_newline mid = true.
Proof.
  split.
  - intros H. open_match H. do 5 take_lit H.
    apply Matches_seq_inv in H. destruct H as [m [Hs H]].
    apply Matches_star_any_inv in Hs. destruct Hs as [mid [E Hn]].
    simpl in E. subst. destruct m as [b t]. simpl in *.
    do 5 take_lit H. exists mid. eexists. split; [reflexivity|assumption].
  - intros [mid [rest [-> Hn]]]. eapply re_match_intro; [reflexivity|].
    simpl. do 5 apply Matches_lit_cons.
    destruct (Matches_star_any_intro false mid Hn false (", pc}" ++ rest))
      as [b' HM].
    eapply M_seq; [exact HM|]. simpl.
    do 5 apply Matches_lit_cons. constructor.
Qed.

Lemma svc_shape inst :
  re_match "s[vw][ci] .*?" inst = true <->
  exists c1 c2 rest,
    inst = String "s" (String c1 (String c2 (String " " rest))) /\
    (c1 = "v" \/ c1 = "w")%char /\ (c2 = "c" \/ c2 = "i")%char.
Proof.
  split.
  - intros H. open_match H. take_lit H.
    apply Matches_in_seq_inv in H. destruct H as [c1 [t1 [H1 [E1 H]]]].
    simpl in E1. subst.
    apply Matches_in_seq_inv in H. destruct H as [c2 [t2 [H2 [E2 H]]]].
    simpl in E2. subst. take_lit H.
    exists c1, c2. eexists. split; [reflexivity|].
    simpl in H1, H2. intuition auto.
  - intros [c1 [c2 [rest [-> [H1 H2]]]]].
    eapply re_match_intro; [reflexivity|]. simpl.
    apply Matches_lit_cons.
    apply Matches_in_cons; [simpl; intuition auto|].
    apply Matches_in_cons; [simpl; intuition auto|].
    apply Matches_lit_cons. eapply M_seq; [apply M_star_stop|constructor].
Qed.

Lemma branch_shape inst :
  re_match "bl?x? ..$" inst = true <->
  exists m c1 c2 e,
    In m ["b"; "bl"; "bx"; "blx"] /\
    inst = m ++ " " ++ String c1 (String c2 e) /\
    c1 <> newline /\ c2 <> newline /\
    (e = EmptyString \/ e = String newline EmptyString).
Proof.
  split.
  - intros H. open_match H. take_lit H.
    assert (Hend : forall b t st'',
              Matches (Seq (Literal " ")
                         (Seq Any (Seq Any (Seq AtEnd Empty)))) (b, t) st'' ->
              exists c1 c2 e,
                t = " " ++ String c1 (String c2 e) /\
                c1 <> newline /\ c2 <> newline /\
                (e = EmptyString \/ e = String newline EmptyString)).
    { intros b t st'' HM. take_lit HM. take_any HM c1 Hc1. take_any HM c2 Hc2.
      apply Matches_seq_inv in HM. destruct HM as [m [He _]].
      apply Matches_end_inv in He. simpl in He.
      exists c1, c2. eexists. split; [reflexivity|]. auto. }
    apply Matches_opt_seq_inv in H. destruct H as [H|H].
    + apply Matches_opt_seq_inv in H. destruct H as [H|H].
      * apply Hend in H. destruct H as [c1 [c2 [e [-> Hr]]]].
        exists "b", c1, c2, e. split; [simpl; auto|]. split; [reflexivity|].
        exact Hr.
      * take_lit H. apply Hend in H. destruct H as [c1 [c2 [e [-> Hr]]]].
        exists "bx", c1, c2, e. split; [simpl; auto|]. split; [reflexivity|].
        exact Hr.
    + take_lit H. apply Matches_opt_seq_inv in H. destruct H as [H|H].
      * apply Hend in H. destruct H as [c1 [c2 [e [-> Hr]]]].
        exists "bl", c1, c2, e. split; [simpl; auto|]. split; [reflexivity|].
        exact Hr.
      * take_lit H. apply Hend in H. destruct H as [c1 [c2 [e [-> Hr]]]].
        exists "blx", c1, c2, e. split; [simpl; auto 6|].
        split; [reflexivity|]. exact Hr.
  - intros [m [c1 [c2 [e [Hm [-> [H1 [H2 He]]]]]]]].
    eapply re_match_intro; [reflexivity|]. simpl.
    assert (Hend : forall b,
              Matches (Seq (Literal " ")
                         (Seq Any (Seq Any (Seq AtEnd Empty))))
                      (b, " " ++ String c1 (String c2 e)) (false, e)).
    { intros b. simpl. apply Matches_lit_cons.
      do 2 (apply Matches_any_cons; [assumption|]).
      eapply M_seq; [|constructor]. constructor. exact He. }
    simpl in Hm. destruct Hm as [<-|[<-|[<-|[<-|[]]]]]; simpl;
      apply Matches_lit_cons.
    + do 2 apply Matches_opt_skip_seq. apply Hend.
    + apply Matches_opt_lit_cons. apply Matches_opt_skip_seq. apply Hend.
    + apply Matches_opt_skip_seq. apply Matches_opt_lit_cons. apply Hend.
    + do 2 apply Matches_opt_lit_cons. apply Hend.
Qed.

End Shapes.

(* ================================================================== *)
(** * Further properties of the classifier *)
(* ================================================================== *)

Import Shapes.

Lemma check_end_aarch64 inst :
  check_end "aarch64" inst =
  re_match "s[vw][ci] .*?" inst
  || String.eqb "ret" inst
  || re_match "pop {.*?, pc}" inst.
Proof.
  unfold check_end. change (String.eqb "x64" "aarch64") with false.
  change (String.eqb "x86" "aarch64") with false.
  change (String.eqb "arm" "aarch64") with false.
  change (String.eqb "aarch64" "aarch64") with true. cbv iota.
  generalize (re_match "s[vw][ci] .*?" inst) (String.eqb "ret" inst)
             (re_match "pop {.*?, pc}" inst).
  intros [|] [|] [|]; reflexivity.
Qed.

(** X1.  What the x64 classifier accepts: exactly [ret], [syscall], and
    every text that begins with [call r] followed by at least one
    character other than a newline.  A call through memory such as
    [call qword ptr [rax]] is therefore no tail. *)
Theorem x64_tail_iff (inst : string) :
  check_end "x64" inst = true <->
  inst = "ret" \/ inst = "syscall" \/
  exists c rest, inst = "call r" ++ String c rest /\ c <> newline.
Proof.
  rewrite check_end_x64, !orb_true_iff, !String.eqb_eq, call_r_shape.
  split; intros H; intuition auto.
Qed.

Lemma x64_tail_iff_witness :
  check_end "x64" "call rax" = true /\
  check_end "x64" "call qword ptr [rax]" <> true.
Proof.
  split.
  - apply (proj2 (x64_tail_iff "call rax")). right; right.
    exists "a"%char, "x". split; [reflexivity|discriminate].
  - intros H. apply (proj1 (x64_tail_iff _)) in H.
    destruct H as [H|[H|[c [rest [H _]]]]]; discriminate.
Defined.

(** X2.  What the x86 classifier accepts: exactly [ret], [int 0x80], and
    every text that begins with [call e] followed by at least two
    characters other than a newline. *)
Theorem x86_tail_iff (inst : string) :
  check_end "x86" inst = true <->
  inst = "ret" \/ inst = "int 0x80" \/
  exists c1 c2 rest,
    inst = "call e" ++ String c1 (String c2 rest) /\
    c1 <> newline /\ c2 <> newline.
Proof.
  rewrite check_end_x86, !orb_true_iff, !String.eqb_eq, call_e_shape.
  split; intros H; intuition auto.
Qed.

Lemma x86_tail_iff_witness :
  check_end "x86" "call esi" = true /\ check_end "x86" "call e" <> true.
Proof.
  split.
  - apply (proj2 (x86_tail_iff "call esi")). right; right.
    exists "s"%char, "i"%char, "". repeat split; discriminate.
  - intros H. apply (proj1 (x86_tail_iff _)) in H.
    destruct H as [H|[H|[c1 [c2 [rest [H _]]]]]]; discriminate.
Defined.

(** X3.  What the arm classifier accepts: a text that begins with
    [pop {] and later, with no newline between, has [, pc}]; a text
    that begins with [svc ], [svi ], [swc ] or [swi ]; and a text made
    of [b], [bl], [bx] or [blx], one space and exactly two characters
    (a final newline apart).  A branch to a three-letter operand such
    as [bx r10] is no tail. *)
Theorem arm_tail_iff (inst : string) :
  check_end "arm" inst = true <->
  (exists mid rest,
     inst = "pop {" ++ mid ++ ", pc}" ++ rest /\ no_newline mid = true) \/
  (exists c1 c2 rest,
     inst = String "s" (String c1 (String c2 (String " " rest))) /\
     (c1 = "v" \/ c1 = "w")%char /\ (c2 = "c" \/ c2 = "i")%char) \/
  (exists m c1 c2 e,
     In m ["b"; "bl"; "bx"; "blx"] /\
     inst = m ++ " " ++ String c1 (String c2 e) /\
     c1 <> newline /\ c2 <> newline /\
     (e = EmptyString \/ e = String newline EmptyString)).
Proof.
  rewrite check_end_arm, !orb_true_iff, pop_pc_shape, svc_shape, branch_shape.
  tauto.
Qed.

Lemma arm_tail_iff_witness :
  check_end "arm" "pop {r4, r5, pc}" = true /\
  check_end "arm" "blx r3" = true.
Proof.
  split.
  - apply (proj2 (arm_tail_iff _)). left.
    exists "r4, r5", "". split; reflexivity.
  - apply (proj2 (arm_tail_iff _)). right; right.
    exists "blx", "r"%char, "3"%char, "".
    split; [simpl; auto 6|]. split; [reflexivity|].
    split; [discriminate|]. split; [discriminate|]. now left.
Defined.

(** X4.  What the aarch64 classifier accepts: a text that begins with
    [svc ], [svi ], [swc ] or [swi ]; the text [ret]; and the arm
    [pop {..., pc}] shape.  No branch through a register ([br], [blr])
    is a tail. *)
Theorem aarch64_tail_iff (inst : string) :
  check_end "aarch64" inst = true <->
  (exists c1 c2 rest,
     inst = String "s" (String c1 (String c2 (String " " rest))) /\
     (c1 = "v" \/ c1 = "w")%char /\ (c2 = "c" \/ c2 = "i")%char) \/
  inst = "ret" \/
  (exists mid rest,
     inst = "pop {" ++ mid ++ ", pc}" ++ rest /\ no_newline mid = true).
Proof.
  rewrite check_end_aarch64, !orb_true_iff, String.eqb_eq, pop_pc_shape,
    svc_shape.
  split; intros H; intuition auto.
Qed.

Lemma aarch64_tail_iff_witness :
  check_end "aarch64" "svc #0" = true /\ check_end "aarch64" "br x30" <> true.
Proof.
  split.
  - apply (proj2 (aarch64_tail_iff _)). left.
    exists "v"%char, "c"%char, "#0". split; [reflexivity|]. auto.
  - intros H. apply (proj1 (aarch64_tail_iff _)) in H.
    destruct H as [[c1 [c2 [rest [H _]]]]|[H|[mid [rest [H _]]]]];
      discriminate.
Defined.

(* ================================================================== *)
(** * The instruction text and the window *)
(* ================================================================== *)

Module Text.

Lemma lstrip_length s : (String.length (lstrip s) <= String.length s)%nat.
Proof.
  induction s as [|c s IH]; simpl; [lia|].
  destruct (is_space c); simpl; lia.
Qed.

Lemma rstrip_length s : (String.length (rstrip s) <= String.length s)%nat.
Proof.
  induction s as [|c s IH]; simpl; [lia|].
  destruct (rstrip s) as [|c' t]; simpl in *; [destruct (is_space c)|];
    simpl; lia.
Qed.

Lemma lstrip_same_length s :
  String.length (lstrip s) = String.length s -> lstrip s = s.
Proof.
  destruct s as [|c s]; simpl; [reflexivity|].
  destruct (is_space c); [|reflexivity].
  intros H. pose proof (lstrip_length s). lia.
Qed.

Lemma rstrip_same_length s :
  String.length (rstrip s) = String.length s -> rstrip s = s.
Proof.
  induction s as [|c s IH]; simpl; [reflexivity|].
  pose proof (rstrip_length s) as Hl.
  destruct (rstrip s) as [|c' t] eqn:E.
  - destruct (is_space c); simpl in *; intros H.
    + lia.
    + destruct s; [reflexivity|simpl in *; lia].
  - simpl. intros H. rewrite IH; [reflexivity|]. simpl in *. lia.
Qed.

Lemma strip_fixed s : strip s = s -> lstrip s = s /\ rstrip s = s.
Proof.
  unfold strip. intros H.
  pose proof (lstrip_length s) as H1.
  pose proof (rstrip_length (lstrip s)) as H2.
  assert (E : lstrip s = s).
  { apply lstrip_same_length. rewrite H in H2. lia. }
  rewrite E in H. auto.
Qed.

Lemma lstrip_head c s : lstrip (String c s) = String c s -> is_space c = false.
Proof.
  simpl. destruct (is_space c); [|reflexivity]. intros H.
  pose proof (lstrip_length s) as Hl. rewrite H in Hl. simpl in Hl. lia.
Qed.

Lemma rstrip_app_blank a b : rstrip b = EmptyString -> rstrip (a ++ b) = rstrip a.
Proof.
  intros Hb. induction a as [|c a IH]; simpl; [assumption|].
  now rewrite IH.
Qed.

Lemma rstrip_app_text a b :
  rstrip b <> EmptyString -> rstrip (a ++ b) = a ++ rstrip b.
Proof.
  intros Hb. induction a as [|c a IH]; simpl; [reflexivity|].
  rewrite IH. destruct (a ++ rstrip b) as [|c' t] eqn:E; [|reflexivity].
  exfalso. destruct a; simpl in E; [contradiction|discriminate].
Qed.

Lemma rstrip_idem s : rstrip (rstrip s) = rstrip s.
Proof.
  induction s as [|c s IH]; simpl; [reflexivity|].
  destruct (rstrip s) as [|c' t] eqn:E.
  - destruct (is_space c) eqn:Hc; simpl; [reflexivity|]. now rewrite Hc.
  - simpl in *. rewrite IH. reflexivity.
Qed.

Lemma lstrip_clean s :
  match lstrip s with
  | String c _ => is_space c = false
  | EmptyString => True
  end.
Proof.
  induction s as [|c s IH]; simpl; [exact I|].
  destruct (is_space c) eqn:E; [exact IH|exact E].
Qed.

Lemma rstrip_keeps_head c s :
  is_space c = false -> exists t, rstrip (String c s) = String c t.
Proof.
  intros Hc. simpl. destruct (rstrip s); rewrite ?Hc; eauto.
Qed.

Lemma strip_idem s : strip (strip s) = strip s.
Proof.
  unfold strip. pose proof (lstrip_clean s) as Hc.
  destruct (lstrip s) as [|c t] eqn:E; [reflexivity|].
  destruct (@rstrip_keeps_head c t Hc) as [u Hu]. rewrite Hu.
  assert (El : lstrip (String c u) = String c u) by (simpl; now rewrite Hc).
  rewrite El, <- Hu. apply rstrip_idem.
Qed.

(** ** Slices *)

Lemma firstn_short {A : Type} n (l : list A) :
  (List.length l <= n)%nat -> firstn n l = l.
Proof. intros H. now apply firstn_all2. Qed.

Lemma slice_window {A : Type} (l : list A) (i : Z) :
  (0 <= i)%Z -> slice l i (i + 20) = firstn 20 (skipn (Z.to_nat i) l).
Proof.
  intros Hi. unfold slice, clamp_index.
  destruct (Z.ltb_spec i 0); [lia|].
  destruct (Z.ltb_spec (i + 20) 0); [lia|].
  set (len := Z.of_nat (List.length l)).
  destruct (Z.le_gt_cases i len) as [Hle|Hgt].
  - rewrite (Z.min_l i len) by lia.
    destruct (Z.le_gt_cases (i + 20) len) as [Hle2|Hgt2].
    + rewrite (Z.min_l (i + 20) len) by lia.
      replace (Z.to_nat (i + 20 - i)) with 20%nat by lia. reflexivity.
    + rewrite (Z.min_r (i + 20) len) by lia.
      assert (Hs : List.length (skipn (Z.to_nat i) l) = Z.to_nat (len - i)).
      { rewrite length_skipn. unfold len. lia. }
      rewrite !firstn_short; [reflexivity | lia | lia].
  - rewrite (Z.min_r i len), (Z.min_r (i + 20) len) by lia.
    replace (Z.to_nat (len - len)) with 0%nat by lia. simpl.
    rewrite (skipn_all2 l (n := Z.to_nat i)) by (unfold len in Hgt; lia).
    reflexivity.
Qed.

Lemma slice_length {A : Type} (l : list A) (i : Z) :
  (List.length (slice l i (i + 20)) <= 20)%nat.
Proof.
  unfold slice. etransitivity; [apply firstn_le_length|].
  unfold clamp_index. set (len := Z.of_nat (List.length l)).
  assert (0 <= len)%Z by (unfold len; lia).
  destruct (Z.ltb_spec i 0); destruct (Z.ltb_spec (i + 20) 0); lia.
Qed.

End Text.

Import Text.

(** X5.  The text of an instruction is trimmed: stripping it again
    changes nothing.  For a mnemonic and an operand string without
    blanks at their ends, an instruction without operands is its bare
    mnemonic (so that the comparisons with [ret] and [syscall] can hold)
    and one with operands is mnemonic, one space, operands. *)
Theorem inst_text_trimmed :
  (forall d, strip (inst_text d) = inst_text d) /\
  (forall m o,
     strip m = m -> strip o = o -> m <> EmptyString ->
     inst_text (mkInsn m o) =
     match o with
     | EmptyString => m
     | _ => m ++ " " ++ o
     end).
Proof.
  split.
  - intros d. unfold inst_text. apply strip_idem.
  - intros m o Hm Ho Hne.
    destruct (strip_fixed Hm) as [Hml Hmr]. destruct (strip_fixed Ho) as [_ Hor].
    unfold inst_text, strip. simpl mnemonic. simpl op_str.
    destruct m as [|c m']; [contradiction|].
    pose proof (lstrip_head Hml) as Hc.
    assert (El : forall x, lstrip (String c m' ++ x) = String c m' ++ x)
      by (intros x; simpl; now rewrite Hc).
    rewrite El. destruct o as [|c' o'].
    + rewrite rstrip_app_blank by reflexivity. exact Hmr.
    + assert (Eo : rstrip (" " ++ String c' o') = " " ++ String c' o').
      { rewrite rstrip_app_text; rewrite Hor; [reflexivity|discriminate]. }
      rewrite rstrip_app_text; rewrite Eo; [reflexivity|discriminate].
Qed.

Lemma inst_text_trimmed_witness :
  inst_text (mkInsn "ret" "") = "ret" /\
  inst_text (mkInsn "pop" "rax") = "pop rax".
Proof.
  split.
  - apply (proj2 inst_text_trimmed "ret" ""); [reflexivity|reflexivity|].
    discriminate.
  - apply (proj2 inst_text_trimmed "pop" "rax"); [reflexivity|reflexivity|].
    discriminate.
Defined.

(** X6.  The window handed to the decoder at a non-negative offset is
    the (at most) 20 bytes of the file from that offset on: fewer when
    the file ends before, none at or behind the end of the file; no
    window, at any offset, is longer than 20 bytes. *)
Theorem window_bytes (file_content : list byte) (i : Z) :
  (List.length (slice file_content i (i + 20)) <= 20)%nat /\
  ((0 <= i)%Z ->
   slice file_content i (i + 20)
   = firstn 20 (skipn (Z.to_nat i) file_content)) /\
  ((Z.of_nat (List.length file_content) <= i)%Z ->
   slice file_content i (i + 20) = []).
Proof.
  split; [apply slice_length|]. split; [apply slice_window|].
  intros H. rewrite slice_window by lia.
  rewrite skipn_all2 by lia. reflexivity.
Qed.

Lemma window_bytes_witness :
  slice Demo.twice 3 (3 + 20) = [x58; xc3] /\ slice Demo.twice 5 (5 + 20) = [].
Proof.
  split.
  - rewrite (proj1 (proj2 (window_bytes Demo.twice 3))) by lia. reflexivity.
  - apply (proj2 (proj2 (window_bytes Demo.twice 5))). simpl. lia.
Defined.

(* ================================================================== *)
(** * Further properties of the scan *)
(* ================================================================== *)

Module ScanMore.

Lemma range_In_bounds a b step l i :
  (0 < step)%Z -> range a b step = Ok l -> In i l ->
  (a <= i < b)%Z /\ ((i - a) mod step = 0)%Z.
Proof.
  unfold range. intros Hs.
  destruct (Z.eqb_spec step 0) as [|Hne]; [lia|].
  destruct (Z.ltb_spec 0 step) as [_|]; [|lia].
  intros H. inversion H; subst; clear H. intros Hin.
  apply in_map_iff in Hin. destruct Hin as [k [<- Hk]].
  apply in_seq in Hk.
  set (q := ((b - a + step - 1) / step)%Z) in *.
  assert (Hq : (Z.of_nat k + 1 <= q)%Z) by lia.
  assert (Hm : (step * q <= b - a + step - 1)%Z)
    by (apply Z.mul_div_le; lia).
  split.
  - nia.
  - replace (a + Z.of_nat k * step - a)%Z with (Z.of_nat k * step)%Z by lia.
    apply Z_mod_mult.
Qed.

Lemma sorted_snoc (l : list Z) x :
  StronglySorted Z.lt l -> Forall (fun y => (y < x)%Z) l ->
  StronglySorted Z.lt (l ++ [x]).
Proof.
  induction 1 as [|y l Hs IH Hy]; intros Hx; simpl.
  - repeat constructor.
  - inversion Hx; subst. constructor; [auto|].
    apply Forall_app. split; [assumption|]. repeat constructor. assumption.
Qed.

Lemma sorted_NoDup (l : list Z) : StronglySorted Z.lt l -> NoDup l.
Proof.
  induction 1 as [|y l Hs IH Hy]; constructor; [|assumption].
  intros Hin. rewrite Forall_forall in Hy. apply Hy in Hin. lia.
Qed.

Section Keys.

Variable self : ROP.
Variable fc : list byte.

Lemma keys_step seen g i :
  Forall (fun j => (j < i)%Z) seen ->
  StronglySorted Z.lt (keys g) /\
  (forall a, In a (keys g) -> exists j, In j seen /\ a = (va self + j)%Z) ->
  StronglySorted Z.lt (keys (scan_offset self fc g i)) /\
  (forall a, In a (keys (scan_offset self fc g i)) ->
     exists j, In j (seen ++ [i]) /\ a = (va self + j)%Z).
Proof.
  intros Hlt [Hs Hk]. rewrite Forall_forall in Hlt.
  assert (Hold : forall a, In a (keys g) ->
            exists j, In j (seen ++ [i]) /\ a = (va self + j)%Z).
  { intros a Ha. destruct (Hk a Ha) as [j [Hj E]]. exists j.
    split; [apply in_or_app; now left|assumption]. }
  destruct (Scan.scan_offset_cases self fc g i) as [[E _]|[tmp [_ [_ E]]]];
    rewrite E; [auto|].
  assert (Hbelow : Forall (fun a => (a < va self + i)%Z) (keys g)).
  { apply Forall_forall. intros a Ha. destruct (Hk a Ha) as [j [Hj ->]].
    apply Hlt in Hj. lia. }
  assert (Hfresh : ~ In (va self + i)%Z (keys g)).
  { intros Hin. rewrite Forall_forall in Hbelow. apply Hbelow in Hin. lia. }
  rewrite Scan.dict_set_fresh by assumption.
  unfold keys. rewrite map_app. simpl. split.
  - apply sorted_snoc; assumption.
  - intros a Ha. apply in_app_or in Ha. destruct Ha as [Ha|[<-|[]]]; [auto|].
    exists i. split; [apply in_or_app; right; now left|reflexivity].
Qed.

Lemma keys_fold :
  forall l seen g,
    StronglySorted Z.lt (seen ++ l) ->
    StronglySorted Z.lt (keys g) /\
    (forall a, In a (keys g) -> exists j, In j seen /\ a = (va self + j)%Z) ->
    let g' := fold_left (scan_offset self fc) l g in
    StronglySorted Z.lt (keys g') /\
    (forall a, In a (keys g') ->
       exists j, In j (seen ++ l) /\ a = (va self + j)%Z).
Proof.
  induction l as [|i l IH]; intros seen g Hs Hinv; simpl.
  - now rewrite app_nil_r.
  - replace (seen ++ i :: l)%list with ((seen ++ [i]) ++ l)%list
      by (rewrite <- app_assoc; reflexivity).
    apply IH.
    + rewrite <- app_assoc. exact Hs.
    + apply keys_step; [|assumption]. eapply Dedup.sorted_before; eauto.
Qed.

Lemma scan_all_known l :
  forall g,
    (forall i tmp, In i l -> candidate self fc i = (tmp, true) ->
                   In tmp (values g)) ->
    fold_left (scan_offset self fc) l g = g.
Proof.
  induction l as [|i l IH]; intros g H; simpl; [reflexivity|].
  destruct (Scan.scan_offset_cases self fc g i) as [[E _]|[tmp [Hc [Hn _]]]].
  - rewrite E. apply IH. intros j tmp Hj. apply H. now right.
  - exfalso. apply Hn. eapply H; [now left|eassumption].
Qed.

End Keys.

Lemma find_gadgets_result self fc self' out :
  find_gadgets self fc = Ok (self', out) ->
  exists offsets,
    range (start self) (end_ self + instruction_size self * 2)%Z
          (instruction_size self) = Ok offsets /\
    self' = set_gadgets self
              (fold_left (scan_offset self fc) offsets (gadgets self)) /\
    out = str_of_nat (List.length (gadgets self')) ++ " gadgets found"
            ++ String newline EmptyString ++ gadgets_to_write (gadgets self').
Proof.
  unfold find_gadgets. destruct (range _ _ _) as [offsets| |]; simpl;
    intros H; inversion H; subst. exists offsets. auto.
Qed.

End ScanMore.

Import ScanMore.

(** X7.  After a scan from the empty store with a positive step, the
    addresses of the store are strictly increasing in insertion order
    (so no address occurs twice), and each is [va + i] for an offset [i]
    of the range: [start <= i < end + 2 * step], a whole number of steps
    from [start]. *)
Theorem scan_addresses (self : ROP) (fc : list byte) (self' : ROP)
  (out : string) :
  gadgets self = [] ->
  (0 < instruction_size self)%Z ->
  find_gadgets self fc = Ok (self', out) ->
  StronglySorted Z.lt (keys (gadgets self')) /\
  NoDup (keys (gadgets self')) /\
  (forall a, In a (keys (gadgets self')) ->
     exists i, a = (va self + i)%Z /\
               (start self <= i < end_ self + instruction_size self * 2)%Z /\
               ((i - start self) mod instruction_size self = 0)%Z).
Proof.
  intros Hnil Hstep Hf. apply find_gadgets_inv in Hf.
  destruct Hf as [offsets [Hr Hg]]. rewrite Hg, Hnil.
  destruct (@keys_fold self fc offsets [] []) as [Hs Hk].
  - simpl. eapply Scan.range_positive_sorted; eauto.
  - split; [constructor|]. intros a [].
  - split; [exact Hs|]. split; [apply sorted_NoDup; exact Hs|].
    intros a Ha. destruct (Hk a Ha) as [i [Hi ->]]. exists i.
    split; [reflexivity|]. simpl in Hi.
    eapply range_In_bounds; eauto.
Qed.

Lemma scan_addresses_witness :
  StronglySorted Z.lt [4096; 4097]%Z /\
  NoDup [4096; 4097]%Z /\
  (forall a, In a [4096; 4097]%Z ->
     exists i, a = (4096 + i)%Z /\ (0 <= i < 3 + 1 * 2)%Z /\
               ((i - 0) mod 1 = 0)%Z).
Proof.
  apply (@scan_addresses (Demo.x64_self 4096 3) Demo.twice
           (set_gadgets (Demo.x64_self 4096 3)
                        [(4096%Z, ["pop rax"; "ret"]); (4097%Z, ["ret"])])
           (snd (match find_gadgets (Demo.x64_self 4096 3) Demo.twice with
                 | Ok r => r
                 | _ => (Demo.x64_self 4096 3, EmptyString)
                 end))).
  - reflexivity.
  - simpl. lia.
  - vm_compute. reflexivity.
Defined.

(** X8.  Range exhaustion: when no offset of the range yields a
    terminated candidate, the scan ends normally and the store is what
    it was; from the empty store the report is the single line
    [0 gadgets found]. *)
Theorem nothing_found_nothing_stored (self : ROP) (fc : list byte)
  (offsets : list Z) :
  range (start self) (end_ self + instruction_size self * 2)%Z
        (instruction_size self) = Ok offsets ->
  (forall i, In i offsets -> snd (candidate self fc i) = false) ->
  exists self' out,
    find_gadgets self fc = Ok (self', out) /\
    gadgets self' = gadgets self /\
    (gadgets self = [] ->
     out = "0 gadgets found" ++ String newline EmptyString).
Proof.
  intros Hr Hnone. unfold find_gadgets. rewrite Hr. cbn [bind].
  assert (E : fold_left (scan_offset self fc) offsets (gadgets self)
              = gadgets self).
  { apply scan_none. apply Forall_forall. exact Hnone. }
  rewrite E. do 2 eexists. split; [reflexivity|]. split; [reflexivity|].
  intros ->. reflexivity.
Qed.

Lemma nothing_found_nothing_stored_witness :
  exists self' out,
    find_gadgets (Demo.x64_self 4096 3) (repeat x00 8) = Ok (self', out) /\
    gadgets self' = [] /\
    (@nil (Z * list string) = [] ->
     out = "0 gadgets found" ++ String newline EmptyString).
Proof.
  apply (@nothing_found_nothing_stored (Demo.x64_self 4096 3) (repeat x00 8)
           [0; 1; 2; 3; 4]%Z).
  - reflexivity.
  - intros i Hi. simpl in Hi.
    repeat (destruct Hi as [<-|Hi]; [vm_compute; reflexivity|]).
    destruct Hi.
Defined.

(** X9.  Scanning again changes nothing: [find_gadgets] run on the
    instance that a scan from the empty store has left (the dictionary
    is shared by the class) gives the same store and writes the same
    report. *)
Theorem rescan_idempotent (self : ROP) (fc : list byte) (self' : ROP)
  (out : string) :
  gadgets self = [] ->
  (0 < instruction_size self)%Z ->
  find_gadgets self fc = Ok (self', out) ->
  find_gadgets self' fc = Ok (self', out).
Proof.
  intros Hnil Hstep Hf.
  destruct (find_gadgets_result _ _ Hf) as [offsets [Hr [Hs Ho]]].
  set (g := fold_left (scan_offset self fc) offsets (gadgets self)) in *.
  assert (Hk : first_kept self fc offsets g).
  { unfold g. rewrite Hnil.
    apply Dedup.first_kept_fold with (seen := @nil Z).
    - simpl. eapply Scan.range_positive_sorted; eauto.
    - apply Dedup.first_kept_nil. }
  destruct Hk as [_ [_ Hall]].
  assert (Hg : gadgets self' = g) by (rewrite Hs; reflexivity).
  rewrite Ho, Hg. rewrite Hs. unfold find_gadgets.
  change (range (start (set_gadgets self g))
                (end_ (set_gadgets self g)
                 + instruction_size (set_gadgets self g) * 2)
                (instruction_size (set_gadgets self g)))
    with (range (start self) (end_ self + instruction_size self * 2)%Z
                (instruction_size self)).
  rewrite Hr. cbn [bind].
  change (scan_offset (set_gadgets self g) fc) with (scan_offset self fc).
  change (gadgets (set_gadgets self g)) with g.
  rewrite (scan_all_known self fc offsets g) by (intros i tmp; apply Hall).
  reflexivity.
Qed.

Lemma rescan_idempotent_witness :
  find_gadgets
    (set_gadgets (Demo.x64_self 4096 3)
                 [(4096%Z, ["pop rax"; "ret"]); (4097%Z, ["ret"])])
    Demo.twice
  = Ok (set_gadgets (Demo.x64_self 4096 3)
                    [(4096%Z, ["pop rax"; "ret"]); (4097%Z, ["ret"])],
        snd (match find_gadgets (Demo.x64_self 4096 3) Demo.twice with
             | Ok r => r
             | _ => (Demo.x64_self 4096 3, EmptyString)
             end)).
Proof.
  apply (@rescan_idempotent (Demo.x64_self 4096 3) Demo.twice).
  - reflexivity.
  - simpl. lia.
  - vm_compute. reflexivity.
Defined.

(* ================================================================== *)
(** * Further properties of the selector and of the set-up *)
(* ================================================================== *)

Module SelectMore.
Import Scan Selector.

Lemma dict_set_nonempty d k v : dict_set d k v <> [].
Proof.
  destruct d as [|[k' v'] d]; simpl; [discriminate|].
  destruct (k' =? k)%Z; discriminate.
Qed.

Section Items.

Variable patterns : list string.

(** From an empty dictionary and over distinct keys, the dictionary is
    the list of the calls. *)
Lemma items_step seen s a i :
  ~ In a (keys seen) ->
  sel_interesting s = map call_item (sel_calls s) /\
  (forall c, In c (sel_calls s) -> In (call_item c) seen) ->
  let s' := select_gadget patterns s (a, i) in
  sel_interesting s' = map call_item (sel_calls s') /\
  (forall c, In c (sel_calls s') -> In (call_item c) (seen ++ [(a, i)])%list).
Proof.
  intros Hfresh [Hd Hc]. cbv zeta. rewrite select_gadget_spec.
  assert (Hweak : forall c, In c (sel_calls s) ->
                            In (call_item c) (seen ++ [(a, i)])%list).
  { intros c Hin. apply in_or_app. left. auto. }
  destruct (in_values i (sel_interesting s)); [auto|].
  destruct (first_match patterns (String.concat "; " i)) as [k|]; [|auto].
  simpl. split.
  - rewrite map_app. simpl. unfold call_item at 2. simpl.
    rewrite <- Hd. apply dict_set_fresh.
    rewrite Hd. unfold keys. rewrite map_map. intros Hin.
    apply in_map_iff in Hin. destruct Hin as [c [E Hin]].
    apply Hc in Hin. apply Hfresh. rewrite <- E.
    destruct (call_item c) as [a' i'] eqn:Ec. simpl.
    eapply In_keys. eassumption.
  - intros c Hin. apply in_app_or in Hin. destruct Hin as [Hin|[<-|[]]].
    + auto.
    + apply in_or_app. right. now left.
Qed.

Lemma items_fold :
  forall l seen s,
    NoDup (keys (seen ++ l)%list) ->
    sel_interesting s = map call_item (sel_calls s) /\
    (forall c, In c (sel_calls s) -> In (call_item c) seen) ->
    let s' := fold_left (select_gadget patterns) l s in
    sel_interesting s' = map call_item (sel_calls s') /\
    (forall c, In c (sel_calls s') -> In (call_item c) (seen ++ l)%list).
Proof.
  induction l as [|[a i] l IH]; intros seen s Hnd Hinv; simpl.
  - now rewrite app_nil_r.
  - replace (seen ++ (a, i) :: l)%list with ((seen ++ [(a, i)]) ++ l)%list
      by (rewrite <- app_assoc; reflexivity).
    apply IH.
    + rewrite <- app_assoc. exact Hnd.
    + apply items_step; [|assumption].
      unfold keys in Hnd. rewrite map_app in Hnd. simpl in Hnd.
      apply NoDup_remove_2 in Hnd. intros Hin. apply Hnd.
      apply in_or_app. now left.
Qed.

(** The dictionary never becomes empty, and changes only with a call. *)
Lemma emptiness_fold :
  forall l s,
    let s' := fold_left (select_gadget patterns) l s in
    (sel_interesting s <> [] -> sel_interesting s' <> []) /\
    (sel_calls s' = sel_calls s -> sel_interesting s' = sel_interesting s) /\
    (sel_calls s' <> sel_calls s -> sel_interesting s' <> []) /\
    exists more, sel_calls s' = (sel_calls s ++ more)%list.
Proof.
  induction l as [|[a i] l IH]; intros s; simpl.
  - split; [auto|]. split; [auto|]. split; [congruence|].
    exists []. now rewrite app_nil_r.
  - destruct (IH (select_gadget patterns s (a, i))) as [I1 [I2 [I3 [more I4]]]].
    rewrite select_gadget_spec in *.
    destruct (in_values i (sel_interesting s)); [eauto 6|].
    destruct (first_match patterns (String.concat "; " i)) as [k|]; [|eauto 6].
    simpl in *.
    assert (Hne : fold_left (select_gadget patterns) l (flag k a i s)
                  = fold_left (select_gadget patterns) l (flag k a i s))
      by reflexivity.
    assert (Hd : sel_interesting
                   (fold_left (select_gadget patterns) l (flag k a i s)) <> [])
      by (apply I1; apply dict_set_nonempty).
    split; [auto|]. split.
    + intros E. exfalso. rewrite I4 in E. rewrite <- app_assoc in E.
      apply (f_equal (@List.length _)) in E. rewrite !length_app in E.
      simpl in E. lia.
    + split; [auto|]. exists ((k, a, i) :: more).
      rewrite I4, <- app_assoc. reflexivity.
Qed.

End Items.

Lemma check_interesting_some self file pats :
  pattern self = Some pats ->
  let s := select_all pats (gadgets self) (interesting_gadget self) in
  check_interesting self file =
  (set_interesting self (sel_interesting s),
   match sel_interesting s with
   | [] => file
   | _ :: _ =>
       file ++ String newline (String newline EmptyString)
            ++ "Interesting Gadgets:" ++ String newline EmptyString
            ++ lines_of_calls (sel_calls s)
   end,
   sel_calls s).
Proof.
  intros Hp. cbv zeta. unfold check_interesting. rewrite Hp.
  pose proof (@to_write_lines pats (gadgets self)
                (mkSelection (interesting_gadget self) [] EmptyString)
                eq_refl) as Hw.
  cbv zeta in Hw. fold (select_all pats (gadgets self) (interesting_gadget self))
    in Hw.
  rewrite Hw.
  destruct (sel_interesting
              (select_all pats (gadgets self) (interesting_gadget self)));
    reflexivity.
Qed.

End SelectMore.

Import SelectMore.

(** X10.  The interesting gadgets are taken from the store: after
    [check_interesting] on an instance whose dictionary of interesting
    gadgets was empty (the store being a dictionary, with distinct
    keys), that dictionary holds exactly the gadgets passed to
    [make_function], in the order of the calls; each of them is an
    entry of the store under the same address; no instruction sequence
    occurs twice among them; and the store itself is not changed. *)
Theorem interesting_from_store (self : ROP) (file : string) (self' : ROP)
  (file' : string) (calls : list (nat * Z * list string)) :
  interesting_gadget self = [] ->
  NoDup (keys (gadgets self)) ->
  check_interesting self file = (self', file', calls) ->
  interesting_gadget self' = map call_item calls /\
  (forall a i, In (a, i) (interesting_gadget self') ->
               In (a, i) (gadgets self)) /\
  NoDup (values (interesting_gadget self')) /\
  gadgets self' = gadgets self.
Proof.
  intros Hnil Hnd Hci. unfold check_interesting in Hci.
  destruct (pattern self) as [pats|] eqn:Hp.
  - inversion Hci; subst; clear Hci. cbn [interesting_gadget set_interesting gadgets].
    rewrite Hnil. unfold select_all.
    destruct (@items_fold pats (gadgets self) []
                (mkSelection [] [] EmptyString) Hnd) as [Hd Hc].
    { split; [reflexivity|]. intros c []. }
    rewrite Hd. split; [reflexivity|]. split; [|split; [|reflexivity]].
    + intros a i Hin. apply in_map_iff in Hin. destruct Hin as [c [E Hin]].
      apply Hc in Hin. rewrite E in Hin. exact Hin.
    + pose proof (Selector.flagged_once_all pats (gadgets self) [] Hnd)
        as [_ Hn].
      unfold select_all in Hn. unfold values. rewrite map_map.
      exact Hn.
  - inversion Hci; subst; clear Hci. rewrite Hnil.
    repeat split; try constructor. intros a i [].
Qed.

Lemma interesting_from_store_witness :
  interesting_gadget
    (fst (fst (check_interesting
                 (set_gadgets (Demo.x64_self 4096 3)
                    [(4096%Z, ["pop rax"; "ret"]); (4097%Z, ["ret"]);
                     (4200%Z, ["ret"])]) "")))
  = map call_item [(1%nat, 4096%Z, ["pop rax"; "ret"]);
                   (0%nat, 4097%Z, ["ret"])].
Proof.
  refine (proj1 (@interesting_from_store
            (set_gadgets (Demo.x64_self 4096 3)
               [(4096%Z, ["pop rax"; "ret"]); (4097%Z, ["ret"]);
                (4200%Z, ["ret"])])
            ""
            (fst (fst (check_interesting
                 (set_gadgets (Demo.x64_self 4096 3)
                    [(4096%Z, ["pop rax"; "ret"]); (4097%Z, ["ret"]);
                     (4200%Z, ["ret"])]) "")))
            (snd (fst (check_interesting
                 (set_gadgets (Demo.x64_self 4096 3)
                    [(4096%Z, ["pop rax"; "ret"]); (4097%Z, ["ret"]);
                     (4200%Z, ["ret"])]) "")))
            [(1%nat, 4096%Z, ["pop rax"; "ret"]); (0%nat, 4097%Z, ["ret"])]
            eq_refl _ _)).
  - simpl. repeat constructor; simpl; intuition discriminate.
  - vm_compute. reflexivity.
Defined.

(** X11.  When the report gets its second section.  With a template
    list, the section is appended exactly when the dictionary of
    interesting gadgets is not empty afterwards, and its body is one
    line per call of [make_function].  Hence a dictionary that already
    held entries (it is shared by the class) makes the header appear
    even when this run flags nothing; from an empty dictionary the
    section appears exactly when a gadget is flagged. *)
Theorem interesting_section_written (self : ROP) (file : string)
  (pats : list string) (self' : ROP) (file' : string)
  (calls : list (nat * Z * list string)) :
  pattern self = Some pats ->
  check_interesting self file = (self', file', calls) ->
  let section :=
    String newline (String newline EmptyString)
      ++ "Interesting Gadgets:" ++ String newline EmptyString
      ++ lines_of_calls calls in
  (interesting_gadget self' = [] -> file' = file) /\
  (interesting_gadget self' <> [] -> file' = file ++ section) /\
  (interesting_gadget self <> [] -> file' = file ++ section) /\
  (interesting_gadget self = [] -> calls = [] -> file' = file) /\
  (calls <> [] -> file' = file ++ section).
Proof.
  intros Hp Hci. rewrite (check_interesting_some self file Hp) in Hci.
  cbv zeta in Hci. inversion Hci; subst; clear Hci.
  cbn [interesting_gadget set_interesting]. cbv zeta.
  destruct (@emptiness_fold pats (gadgets self)
              (mkSelection (interesting_gadget self) [] EmptyString))
    as [E1 [E2 [E3 _]]].
  cbn [sel_interesting sel_calls] in E1, E2, E3.
  fold (select_all pats (gadgets self) (interesting_gadget self)) in E1, E2, E3.
  set (s := select_all pats (gadgets self) (interesting_gadget self)) in *.
  assert (Hcase : forall x : dict,
            x = sel_interesting s -> x <> [] ->
            match x with
            | [] => file
            | _ :: _ =>
                file ++ String newline (String newline EmptyString)
                  ++ "Interesting Gadgets:" ++ String newline EmptyString
                  ++ lines_of_calls (sel_calls s)
            end
            = file ++ (String newline (String newline EmptyString)
                  ++ "Interesting Gadgets:" ++ String newline EmptyString
                  ++ lines_of_calls (sel_calls s))).
  { intros [|e x] _ Hx; [contradiction|reflexivity]. }
  split; [intros ->; reflexivity|].
  split; [intros Hne; now apply Hcase|].
  split; [intros Hne; apply Hcase; auto|].
  split.
  - intros Hnil Hc. rewrite (E2 Hc), Hnil. reflexivity.
  - intros Hc. apply Hcase; auto.
Qed.

Lemma interesting_section_written_witness :
  snd (fst (check_interesting
              (set_interesting
                 (set_gadgets (Demo.x64_self 4096 3) [(4096%Z, ["nop"; "ret"])])
                 [(1%Z, ["old"])])
              "1 gadgets found"))
  = "1 gadgets found"
    ++ (String newline (String newline EmptyString)
        ++ "Interesting Gadgets:" ++ String newline EmptyString
        ++ lines_of_calls []).
Proof.
  refine (proj1 (proj2 (proj2
            (@interesting_section_written
               (set_interesting
                  (set_gadgets (Demo.x64_self 4096 3)
                               [(4096%Z, ["nop"; "ret"])])
                  [(1%Z, ["old"])])
               "1 gadgets found" patterns_x64 _ _ [] eq_refl _))) _).
  - vm_compute. reflexivity.
  - discriminate.
Defined.

Lemma set_arch_readelf cfg elf a :
  set_arch_attr cfg = None ->
  set_arch cfg elf = Ok a ->
  exists w, machine elf = Some w /\ In (w, a) supported_archs.
Proof.
  unfold set_arch. intros ->. destruct (machine elf) as [w|]; [|discriminate].
  destruct (find _ supported_archs) as [[w' a']|] eqn:E; [|discriminate].
  intros H. inversion H; subst. apply find_some in E. destruct E as [Hin Hw].
  simpl in Hw. apply String.eqb_eq in Hw. subst. eauto.
Qed.

(** X12.  An architecture taken from [readelf] is always one that
    [set_mode] knows: when [arch] is not set by hand and [set_arch]
    ends normally, the machine word is a key of [supported_archs], the
    architecture is one of the four, and [set_mode] ends normally with
    step 1 or 4.  A machine word outside the table raises [KeyError],
    and a header without machine line exits with status 1. *)
Theorem arch_from_readelf (Cs : cs_arch -> cs_mode -> engine)
  (cfg : settings) (elf : readelf) :
  set_arch_attr cfg = None ->
  (forall a, set_arch cfg elf = Ok a ->
     (exists w, machine elf = Some w /\ In (w, a) supported_archs) /\
     In a ["x64"; "x86"; "arm"; "aarch64"] /\
     exists eng size pats,
       set_mode Cs a = Ok (eng, size, pats) /\ (size = 1 \/ size = 4)%Z) /\
  (forall w, machine elf = Some w ->
     ~ In w (map fst supported_archs) -> set_arch cfg elf = Raise "KeyError") /\
  (machine elf = None -> set_arch cfg elf = Exit 1).
Proof.
  intros Hn. split; [|split].
  - intros a Ha. destruct (set_arch_readelf cfg elf Hn Ha) as [w [Hw Hin]].
    assert (Hfour : In a ["x64"; "x86"; "arm"; "aarch64"]).
    { simpl in Hin.
      destruct Hin as [E|[E|[E|[E|[]]]]]; inversion E; subst; simpl; auto. }
    split; [eauto|]. split; [assumption|]. now apply set_mode_supported.
  - intros w Hw Hnot. unfold set_arch. rewrite Hn, Hw.
    destruct (find _ supported_archs) as [[w' a']|] eqn:E; [|reflexivity].
    exfalso. apply find_some in E. destruct E as [Hin Hw'].
    simpl in Hw'. apply String.eqb_eq in Hw'. subst w'.
    apply Hnot. apply (in_map fst) in Hin. exact Hin.
  - intros Hm. unfold set_arch. now rewrite Hn, Hm.
Qed.

Lemma arch_from_readelf_witness :
  (exists w, Some "80386" = Some w /\ In (w, "x86") supported_archs) /\
  In "x86" ["x64"; "x86"; "arm"; "aarch64"] /\
  exists eng size pats,
    set_mode Demo.toy_Cs "x86" = Ok (eng, size, pats) /\
    (size = 1 \/ size = 4)%Z.
Proof.
  apply (proj1 (@arch_from_readelf Demo.toy_Cs Demo.no_settings
                  (Demo.elf_at 4096 0 3 "80386") eq_refl) "x86").
  reflexivity.
Defined.



(** X14.  Setting [start], [end] and [VA] by hand cannot work: with all
    three set, [__init__] never ends normally; for an architecture that
    [set_mode] accepts it ends in [AttributeError], because
    [set_offsets] reads the attribute [va] that nothing has assigned. *)
Theorem manual_offsets_crash (Cs : cs_arch -> cs_mode -> engine)
  (cfg : settings) (elf : readelf) (s e v : Z) :
  set_start_attr cfg = Some s ->
  set_end_attr cfg = Some e ->
  set_VA_attr cfg = Some v ->
  (forall self, init Cs cfg elf <> Ok self) /\
  (forall a, set_arch cfg elf = Ok a ->
             In a ["x64"; "x86"; "arm"; "aarch64"] ->
             init Cs cfg elf = Raise "AttributeError").
Proof.
  intros Hs He Hv. split.
  - intros self H. unfold init in H.
    destruct (set_arch cfg elf) as [a| |]; try discriminate. cbn [bind] in H.
    destruct (set_mode Cs a) as [m| |]; try discriminate. cbn [bind] in H.
    unfold set_offsets in H. rewrite Hs, He, Hv in H. discriminate.
  - intros a Ha Hin. unfold init. rewrite Ha. cbn [bind].
    destruct (@set_mode_supported Cs a Hin) as [eng [size [pats [Hm _]]]].
    rewrite Hm. cbn [bind]. unfold set_offsets. rewrite Hs, He, Hv.
    reflexivity.
Qed.

Lemma manual_offsets_crash_witness :
  init Demo.toy_Cs
       (mkSettings (Some "x64") (Some 0%Z) (Some 15%Z) (Some 4198400%Z))
       (Demo.elf_at 4198400 0 15 "x86-64")
  = Raise "AttributeError".
Proof.
  apply (proj2 (@manual_offsets_crash Demo.toy_Cs
                  (mkSettings (Some "x64") (Some 0%Z) (Some 15%Z)
                              (Some 4198400%Z))
                  (Demo.elf_at 4198400 0 15 "x86-64") 0 15 4198400
                  eq_refl eq_refl eq_refl) "x64").
  - reflexivity.
  - left. reflexivity.
Defined.

Lemma format_shape_signed n :
  exists ds,
    format_hash08x n = (if (n <? 0)%Z then "-" else "") ++ "0x" ++ ds /\
    hex_value ds = Some (Z.abs n) /\ ds <> EmptyString.
Proof.
  unfold format_hash08x.
  destruct (hex_value_hex (Z.abs_nonneg n)) as [Hv Hl].
  eexists. split; [reflexivity|]. split; [now rewrite hex_value_zeros|].
  intros E. apply (f_equal String.length) in E.
  rewrite length_append in E. simpl in E. lia.
Qed.

(** X15.  Formatted addresses are at least 8 characters wide, for every
    integer, and two different integers are never printed alike. *)
Theorem format_hash08x_injective :
  (forall n, (8 <= String.length (format_hash08x n))%nat) /\
  (forall a b, format_hash08x a = format_hash08x b -> a = b).
Proof.
  split.
  - intros n. unfold format_hash08x.
    rewrite !length_append, length_zeros.
    generalize (String.length (hex (Z.abs n))). intros m.
    change (String.length "0x") with 2%nat.
    destruct (n <? 0)%Z;
      [change (String.length "-") with 1%nat
      |change (String.length "") with 0%nat]; lia.
  - intros a b E.
    destruct (format_shape_signed a) as [da [Ea [Ha _]]].
    destruct (format_shape_signed b) as [db [Eb [Hb _]]].
    rewrite Ea, Eb in E.
    destruct (Z.ltb_spec a 0), (Z.ltb_spec b 0); simpl in E;
      inversion E; subst db; rewrite Ha in Hb; inversion Hb; lia.
Qed.

Lemma format_hash08x_injective_witness :
  (8 <= String.length (format_hash08x (-5)))%nat /\
  (format_hash08x 4660 = format_hash08x 4660 -> 4660 = 4660)%Z.
Proof.
  split.
  - apply (proj1 format_hash08x_injective).
  - apply (proj2 format_hash08x_injective).
Defined.

(* ================================================================== *)
(** * The output of [readelf] *)
(* ================================================================== *)

Module Readelf.

(** ** Searching and splitting *)

Lemma starts_with_app p s : starts_with p (p ++ s) = true.
Proof.
  induction p as [|c p IH]; simpl; [now destruct s|].
  now rewrite Ascii.eqb_refl.
Qed.

Lemma contains_here sub s : starts_with sub s = true -> contains sub s = true.
Proof. intros H. destruct s; simpl in *; now rewrite H. Qed.

Lemma contains_later sub c s : contains sub s = true -> contains sub (String c s) = true.
Proof. intros H. simpl. rewrite H. apply orb_true_r. Qed.

Lemma contains_app sub pre post : contains sub (pre ++ sub ++ post) = true.
Proof.
  induction pre as [|c pre IH]; simpl.
  - apply contains_here. apply starts_with_app.
  - change (contains sub (String c (pre ++ sub ++ post)) = true).
    now apply contains_later.
Qed.

Lemma contains_cons_false sub c s :
  contains sub (String c s) = false ->
  starts_with sub (String c s) = false /\ contains sub s = false.
Proof. simpl. intros H. apply orb_false_elim in H. exact H. Qed.

Lemma split_skip sep x :
  forall s, split_on_go sep (x ++ s) (String.length x) = split_on_go sep s 0.
Proof.
  induction x as [|c x IH]; intros s; simpl; [reflexivity|]. apply IH.
Qed.

Lemma split_on_go_cons sep c s :
  split_on_go sep (String c s) 0 =
  if starts_with sep (String c s)
  then EmptyString :: split_on_go sep s (String.length sep - 1)
  else match split_on_go sep s 0 with
       | piece :: rest => String c piece :: rest
       | [] => [String c EmptyString]
       end.
Proof. reflexivity. Qed.

(** The piece before the first occurrence, when the first character of
    the separator does not occur earlier. *)
Lemma split_first c0 sep' pre post :
  contains (String c0 EmptyString) pre = false ->
  split_on_go (String c0 sep') (pre ++ String c0 sep' ++ post) 0
  = pre :: split_on_go (String c0 sep') post 0.
Proof.
  induction pre as [|d pre IH]; intros Hpre.
  - change (EmptyString ++ String c0 sep' ++ post)
      with (String c0 (sep' ++ post)).
    rewrite split_on_go_cons.
    change (String c0 (sep' ++ post)) with (String c0 sep' ++ post).
    rewrite starts_with_app.
    change (String.length (String c0 sep') - 1)%nat
      with (String.length sep' - 0)%nat.
    rewrite Nat.sub_0_r, split_skip. reflexivity.
  - apply contains_cons_false in Hpre. destruct Hpre as [Hd Hpre].
    change ((String d pre) ++ String c0 sep' ++ post)
      with (String d (pre ++ String c0 sep' ++ post)).
    rewrite split_on_go_cons.
    assert (E : starts_with (String c0 sep')
                            (String d (pre ++ String c0 sep' ++ post)) = false).
    { simpl in Hd. simpl. destruct (Ascii.eqb c0 d); [|reflexivity].
      simpl in Hd. destruct pre; discriminate. }
    rewrite E, (IH Hpre). reflexivity.
Qed.

(** Without occurrence, the only piece is the text itself. *)
Lemma split_none sep s :
  contains sep s = false -> split_on_go sep s 0 = [s].
Proof.
  induction s as [|c s IH]; intros H.
  - reflexivity.
  - apply contains_cons_false in H. destruct H as [H1 H2].
    rewrite split_on_go_cons, H1, (IH H2). reflexivity.
Qed.

Lemma find_first {A : Type} (f : A -> bool) l1 x l2 :
  (forall y, In y l1 -> f y = false) -> f x = true ->
  find f (l1 ++ x :: l2) = Some x.
Proof.
  induction l1 as [|y l1 IH]; intros Hn Hx; simpl.
  - now rewrite Hx.
  - rewrite (Hn y) by now left. apply IH; [|assumption].
    intros z Hz. apply Hn. now right.
Qed.

Lemma find_none_all {A : Type} (f : A -> bool) l :
  find f l = None <-> forall y, In y l -> f y = false.
Proof.
  split.
  - intros H y Hy. eapply find_none; eauto.
  - induction l as [|y l IH]; intros H; simpl; [reflexivity|].
    rewrite (H y) by now left. apply IH. intros z Hz. apply H. now right.
Qed.

(** ** Numbers *)

Lemma hex_lower_range c d :
  hex_digit_value c = Some d ->
  ((48 <= nat_of_ascii c <= 57) \/ (97 <= nat_of_ascii c <= 102))%nat.
Proof.
  unfold hex_digit_value.
  destruct ((48 <=? nat_of_ascii c) && (nat_of_ascii c <=? 57))%nat eqn:E1.
  - intros _. apply andb_prop in E1. destruct E1 as [A B].
    apply Nat.leb_le in A, B. lia.
  - destruct ((97 <=? nat_of_ascii c) && (nat_of_ascii c <=? 102))%nat eqn:E2;
      [|discriminate].
    intros _. apply andb_prop in E2. destruct E2 as [A B].
    apply Nat.leb_le in A, B. lia.
Qed.

Lemma hex_lower_any c d :
  hex_digit_value c = Some d -> hex_digit_any c = Some d.
Proof.
  unfold hex_digit_value, hex_digit_any.
  destruct ((48 <=? nat_of_ascii c) && (nat_of_ascii c <=? 57))%nat;
    [auto|].
  destruct ((97 <=? nat_of_ascii c) && (nat_of_ascii c <=? 102))%nat;
    [auto|discriminate].
Qed.

Lemma hex_lower_not c d x :
  hex_digit_value c = Some d ->
  (nat_of_ascii x < 48 \/ 57 < nat_of_ascii x < 97 \/ 102 < nat_of_ascii x)%nat ->
  Ascii.eqb c x = false.
Proof.
  intros H Hx. apply hex_lower_range in H.
  destruct (Ascii.eqb_spec c x) as [->|]; [lia|reflexivity].
Qed.

Lemma hex_lower_not_space c d :
  hex_digit_value c = Some d -> is_bspace c = false.
Proof.
  intros H. apply hex_lower_range in H. unfold is_bspace.
  destruct (Nat.leb_spec 9 (nat_of_ascii c)), (Nat.leb_spec (nat_of_ascii c) 13),
    (Nat.eqb_spec (nat_of_ascii c) 32); simpl; try reflexivity; lia.
Qed.

Lemma scan_digits_hex s :
  forall acc v, hex_value_from acc s = Some v ->
                scan_digits s acc false = Some (v, EmptyString).
Proof.
  induction s as [|c s IH]; intros acc v H;
    cbn [hex_value_from scan_digits] in *.
  - inversion H. reflexivity.
  - destruct (hex_digit_value c) as [d|] eqn:E; [|discriminate].
    rewrite (@hex_lower_not c d "_"%char E) by (vm_compute; lia).
    rewrite (hex_lower_any c E). auto.
Qed.

Lemma int16_digits_hex neg s v :
  s <> EmptyString -> hex_value s = Some v ->
  int16_digits neg s = Ok (if neg then (- v)%Z else v).
Proof.
  intros Hne Hv. destruct s as [|c s']; [contradiction|].
  unfold int16_digits. rewrite (@scan_digits_hex _ 0%Z v Hv).
  unfold hex_value in Hv. cbn [hex_value_from] in Hv.
  destruct (hex_digit_value c) as [d|] eqn:E; [|discriminate].
  rewrite (hex_lower_any c E). reflexivity.
Qed.

Lemma int16_unsigned c s :
  is_bspace c = false -> Ascii.eqb c "+" = false -> Ascii.eqb c "-" = false ->
  (Ascii.eqb c "0" = false \/
   match s with
   | String x _ => Ascii.eqb x "x" = false /\ Ascii.eqb x "X" = false
   | EmptyString => True
   end) ->
  int16 (String c s) = int16_digits false (String c s).
Proof.
  intros Hs Hp Hm H0. unfold int16. cbn [skip_bspace]. rewrite Hs, Hp, Hm.
  cbn [snd fst]. destruct s as [|x r]; [reflexivity|].
  destruct H0 as [H0|[Hx HX]].
  - rewrite H0. reflexivity.
  - rewrite Hx, HX, andb_false_r. reflexivity.
Qed.

(** [int(s, 16)] reads a non-empty string of lowercase digits as
    [hex_value] does. *)
Lemma int16_hex s v :
  s <> EmptyString -> hex_value s = Some v -> int16 s = Ok v.
Proof.
  intros Hne Hv. destruct s as [|c s']; [contradiction|].
  pose proof Hv as Hv'. unfold hex_value in Hv'. cbn [hex_value_from] in Hv'.
  destruct (hex_digit_value c) as [d|] eqn:E; [|discriminate].
  rewrite int16_unsigned.
  - now apply (@int16_digits_hex false).
  - eapply hex_lower_not_space; eauto.
  - apply (@hex_lower_not c d "+"%char E). vm_compute. lia.
  - apply (@hex_lower_not c d "-"%char E). vm_compute. lia.
  - right. destruct s' as [|x r]; [exact I|]. cbn [hex_value_from] in Hv'.
    destruct (hex_digit_value x) as [dx|] eqn:Ex; [|discriminate].
    split; [apply (@hex_lower_not x dx "x"%char Ex)
           |apply (@hex_lower_not x dx "X"%char Ex)];
      vm_compute; lia.
Qed.

Lemma int16_0x u r :
  Ascii.eqb u "_" = false ->
  int16 (String "0" (String "x" (String u r)))
  = int16_digits false (String u r).
Proof.
  intros Hu. unfold int16. cbn [skip_bspace].
  change (is_bspace "0") with false. cbv iota.
  change (Ascii.eqb "0" "+") with false.
  change (Ascii.eqb "0" "-") with false. cbv iota. cbn [snd fst].
  change (Ascii.eqb "0" "0") with true.
  change (Ascii.eqb "x" "x") with true. cbn [andb orb]. cbv iota.
  rewrite Hu. reflexivity.
Qed.

Lemma int16_minus_0x u r :
  Ascii.eqb u "_" = false ->
  int16 (String "-" (String "0" (String "x" (String u r))))
  = int16_digits true (String u r).
Proof.
  intros Hu. unfold int16. cbn [skip_bspace].
  change (is_bspace "-") with false. cbv iota.
  change (Ascii.eqb "-" "+") with false.
  change (Ascii.eqb "-" "-") with true. cbv iota. cbn [snd fst].
  change (Ascii.eqb "0" "0") with true.
  change (Ascii.eqb "x" "x") with true. cbn [andb orb]. cbv iota.
  rewrite Hu. reflexivity.
Qed.

Lemma int16_prefixed (neg : bool) ds v :
  ds <> EmptyString -> hex_value ds = Some v ->
  int16 ((if neg then "-" else "") ++ "0x" ++ ds)
  = Ok (if neg then (- v)%Z else v).
Proof.
  intros Hne Hv. destruct ds as [|u r]; [contradiction|].
  pose proof Hv as Hv'. unfold hex_value in Hv'. cbn [hex_value_from] in Hv'.
  destruct (hex_digit_value u) as [d|] eqn:E; [|discriminate].
  assert (Hu : Ascii.eqb u "_" = false)
    by (apply (@hex_lower_not u d "_"%char E); vm_compute; lia).
  destruct neg.
  - change ("-" ++ "0x" ++ String u r)
      with (String "-" (String "0" (String "x" (String u r)))).
    rewrite (@int16_minus_0x u r Hu). now apply (@int16_digits_hex true).
  - change ("" ++ "0x" ++ String u r)
      with (String "0" (String "x" (String u r))).
    rewrite (@int16_0x u r Hu). now apply (@int16_digits_hex false).
Qed.

End Readelf.

Module ReadelfMore.
Import Readelf.

Lemma section_line_info_some name line r :
  section_line_info name line = Ok r -> exists a o, r = (Some a, Some o).
Proof.
  unfold section_line_info.
  destruct (split_on name line) as [parts| |]; try discriminate. cbn [bind].
  destruct (item parts 1) as [tmp| |]; try discriminate. cbn [bind].
  destruct (item (split_ws tmp) 1) as [t1| |]; try discriminate. cbn [bind].
  destruct (int16 t1) as [a| |]; try discriminate. cbn [bind].
  destruct (item (split_ws tmp) 2) as [t2| |]; try discriminate. cbn [bind].
  destruct (int16 t2) as [o| |]; try discriminate. cbn [bind].
  intros H. inversion H. eauto.
Qed.

Lemma line_after_none name l :
  (forall line, In line l -> contains name line = false) ->
  line_after name l = Ok None.
Proof.
  induction l as [|x l IH]; intros H; simpl; [reflexivity|].
  rewrite (H x) by now left. apply IH. intros y Hy. apply H. now right.
Qed.

Lemma line_after_last name l1 line :
  (forall l, In l l1 -> contains name l = false) ->
  contains name line = true ->
  line_after name (l1 ++ [line]) = Raise "IndexError".
Proof.
  induction l1 as [|x l1 IH]; intros H Hl; simpl.
  - now rewrite Hl.
  - rewrite (H x) by now left. apply IH; [|assumption].
    intros y Hy. apply H. now right.
Qed.

Lemma split_ws_tokens s : Forall (fun t => t <> EmptyString) (split_ws s).
Proof.
  induction s as [|c s IH]; simpl; [constructor|].
  destruct (is_bspace c); [assumption|].
  destruct s as [|c' s']; [repeat constructor; discriminate|].
  destruct (is_bspace c').
  - constructor; [discriminate|assumption].
  - destruct (split_ws (String c' s')) as [|tok rest];
      [repeat constructor; discriminate|].
    inversion IH; subst. constructor; [discriminate|assumption].
Qed.

Lemma split_ws_nil s : split_ws s = [] -> all_bspace s = true.
Proof.
  induction s as [|c s IH]; simpl; [reflexivity|].
  destruct (is_bspace c); [exact IH|].
  destruct s as [|c' s']; [discriminate|].
  destruct (is_bspace c'); [discriminate|].
  destruct (split_ws (String c' s')); discriminate.
Qed.

Lemma starts_with_head c0 p c s :
  starts_with (String c0 p) (String c s) = true -> c0 = c.
Proof.
  simpl. destruct (Ascii.eqb_spec c0 c); [auto|discriminate].
Qed.

Lemma contains_char c0 p s :
  contains (String c0 p) s = true -> In c0 (list_ascii_of_string s).
Proof.
  induction s as [|c s IH]; simpl; [discriminate|].
  intros H. apply orb_prop in H. destruct H as [H|H].
  - left. destruct (Ascii.eqb_spec c0 c); [auto|discriminate].
  - right. auto.
Qed.

Lemma lower_char_small c : is_bspace c = true -> lower_char c = c.
Proof.
  unfold is_bspace, lower_char. intros H.
  destruct (Nat.leb_spec 65 (nat_of_ascii c)); [|reflexivity].
  exfalso.
  destruct (Nat.leb_spec 9 (nat_of_ascii c)),
    (Nat.leb_spec (nat_of_ascii c) 13),
    (Nat.eqb_spec (nat_of_ascii c) 32); simpl in H; try discriminate; lia.
Qed.

Lemma blank_has_no_word s c :
  all_bspace s = true -> In c (list_ascii_of_string (lower s)) ->
  is_bspace c = true.
Proof.
  induction s as [|d s IH]; simpl; [intros _ []|].
  intros H. apply andb_prop in H. destruct H as [Hd Hs].
  intros [E|Hin]; [|auto]. rewrite lower_char_small in E by assumption.
  now subst.
Qed.

Lemma machine_line_has_word entry :
  contains "machine:" (lower entry) = true ->
  exists w, last_item (split_ws entry) = Ok w.
Proof.
  intros H. unfold last_item.
  destruct (rev (split_ws entry)) as [|w l] eqn:E; [|eauto].
  exfalso. apply (f_equal (@rev string)) in E. rewrite rev_involutive in E.
  simpl in E. apply split_ws_nil in E.
  apply contains_char in H. apply (blank_has_no_word entry _ E) in H.
  discriminate.
Qed.

Lemma machine_fold_ok l :
  forall t, exists r, fold_left machine_step l (Ok t) = Ok r.
Proof.
  induction l as [|entry l IH]; intros t; simpl; [eauto|].
  destruct (contains "machine:" (lower entry)) eqn:E.
  - destruct (machine_line_has_word entry E) as [w Hw]. rewrite Hw. apply IH.
  - apply IH.
Qed.

Lemma machine_fold_rest l :
  (forall entry, In entry l -> contains "machine:" (lower entry) = false) ->
  forall t, fold_left machine_step l (Ok t) = Ok t.
Proof.
  induction l as [|entry l IH]; intros H t; simpl; [reflexivity|].
  rewrite (H entry) by now left. apply IH. intros e He. apply H. now right.
Qed.

End ReadelfMore.

Import Readelf ReadelfMore.

(** X16.  A section that is not listed: [get_section_info] returns
    [(None, None)] exactly when no line of the listing holds the name
    (when a line holds it, the result is a pair of numbers or an
    exception).  When no line holds [.text], [set_offsets] ends in a
    [TypeError], raised by the subtraction of the two [None]. *)
Theorem section_not_listed (sections : string) :
  (forall name,
     get_section_info sections name = Ok (None, None) <->
     forall line, In line (splitlines sections) ->
                  contains name line = false) /\
  ((forall line, In line (splitlines sections) ->
                 contains ".text" line = false) ->
   offsets_of_sections sections = Raise "TypeError").
Proof.
  split.
  - intros name. unfold get_section_info.
    destruct (find (contains name) (splitlines sections)) as [line|] eqn:E.
    + split.
      * intros H. apply section_line_info_some in H.
        destruct H as [a [o H]]. discriminate.
      * intros H. apply find_some in E. destruct E as [Hin Hc].
        rewrite (H line Hin) in Hc. discriminate.
    + split; [intros _|reflexivity]. now apply find_none_all.
  - intros H. unfold offsets_of_sections, get_section_info,
      find_next_section_info.
    rewrite (proj2 (find_none_all (contains ".text") (splitlines sections)) H).
    cbn [bind]. rewrite (line_after_none ".text" _ H). reflexivity.
Qed.

Lemma section_not_listed_witness :
  get_section_info Demo.listing ".data" = Ok (None, None) /\
  offsets_of_sections Demo.fini_line = Raise "TypeError".
Proof.
  split.
  - apply (proj1 (section_not_listed Demo.listing) ".data").
    intros line Hin. vm_compute in Hin.
    destruct Hin as [<-|[<-|[]]]; vm_compute; reflexivity.
  - apply (proj2 (section_not_listed Demo.fini_line)).
    intros line Hin. vm_compute in Hin.
    destruct Hin as [<-|[]]; vm_compute; reflexivity.
Defined.

(** X17.  Reading a section line.  Let the first line that holds the
    name be [pre ++ name ++ post], where the first character of the name
    does not occur in [pre], the name does not occur again in [post],
    and the second and third words of [post] are strings of lowercase
    hexadecimal digits.  Then [get_section_info] returns the values of
    these two words: the address and the file offset of the section. *)
Theorem section_line_read (sections : string) (c0 : ascii)
  (name' pre post ty A O : string) (more l1 l2 : list string) (a o : Z) :
  splitlines sections
  = (l1 ++ (pre ++ String c0 name' ++ post)%string :: l2)%list ->
  (forall l, In l l1 -> contains (String c0 name') l = false) ->
  contains (String c0 EmptyString) pre = false ->
  contains (String c0 name') post = false ->
  split_ws post = ty :: A :: O :: more ->
  hex_value A = Some a ->
  hex_value O = Some o ->
  get_section_info sections (String c0 name') = Ok (Some a, Some o).
Proof.
  intros Hl Hl1 Hpre Hpost Htok Ha Ho.
  pose proof (split_ws_tokens post) as Hne. rewrite Htok in Hne.
  inversion Hne as [|? ? _ Hne1]; subst.
  inversion Hne1 as [|? ? HA Hne2]; subst.
  inversion Hne2 as [|? ? HO _]; subst.
  unfold get_section_info. rewrite Hl.
  rewrite find_first by (auto using contains_app).
  unfold section_line_info, split_on. cbn [bind].
  rewrite (@split_first c0 name' pre post Hpre), (@split_none _ post Hpost).
  cbn [item nth_error bind]. rewrite Htok. cbn [item nth_error bind].
  rewrite (int16_hex HA Ha). cbn [bind].
  rewrite (int16_hex HO Ho). reflexivity.
Qed.

Lemma section_line_read_witness :
  get_section_info Demo.listing ".text" = Ok (Some 4196064%Z, Some 1760%Z).
Proof.
  apply (@section_line_read Demo.listing "."%char "text" "  [13] "
           "             PROGBITS        00000000004006e0 0006e0 0009d2 00"
           "PROGBITS" "00000000004006e0" "0006e0" ["0009d2"; "00"]
           [] [Demo.fini_line]); try (vm_compute; reflexivity).
  intros l [].
Defined.

(** X18.  [.text] on the last line: when the first line that holds the
    name is the last line of the listing, [find_next_section_info]
    ends in an [IndexError], raised by [sections_list[i + 1]]. *)
Theorem section_on_last_line (sections name : string) (l1 : list string)
  (line : string) :
  splitlines sections = (l1 ++ [line])%list ->
  (forall l, In l l1 -> contains name l = false) ->
  contains name line = true ->
  find_next_section_info sections name = Raise "IndexError".
Proof.
  intros Hl Hl1 Hc. unfold find_next_section_info.
  rewrite Hl, (line_after_last name l1 line Hl1 Hc). reflexivity.
Qed.

Lemma section_on_last_line_witness :
  find_next_section_info Demo.listing ".fini" = Raise "IndexError".
Proof.
  apply (@section_on_last_line Demo.listing ".fini" [Demo.text_line]
           Demo.fini_line).
  - vm_compute. reflexivity.
  - intros l [<-|[]]. vm_compute. reflexivity.
  - vm_compute. reflexivity.
Defined.

(** X19.  The machine word.  The loop of [set_arch] over the header
    never raises: a line that holds [machine:] has a last word.  The
    last such line decides, and gives its last word in lower case.
    With [arch] not set by hand, [set_arch] then ends with one of the
    four architectures, with exit status 1 (no machine line) or with a
    [KeyError] (a word outside [supported_archs]). *)
Theorem machine_word_read (stdout : string) :
  (exists r, machine_word stdout = Ok r) /\
  (forall l1 entry l2,
     splitlines stdout = (l1 ++ entry :: l2)%list ->
     contains "machine:" (lower entry) = true ->
     (forall l, In l l2 -> contains "machine:" (lower l) = false) ->
     exists w, last_item (split_ws entry) = Ok w /\
               machine_word stdout = Ok (Some (lower w))) /\
  (forall cfg,
     set_arch_attr cfg = None ->
     (exists a, arch_of_header cfg stdout = Ok a /\
                In a ["x64"; "x86"; "arm"; "aarch64"]) \/
     arch_of_header cfg stdout = Exit 1 \/
     arch_of_header cfg stdout = Raise "KeyError").
Proof.
  assert (Hok : exists r, machine_word stdout = Ok r)
    by apply machine_fold_ok.
  split; [exact Hok|]. split.
  - intros l1 entry l2 Hl Hc Hl2. unfold machine_word. rewrite Hl.
    destruct (machine_line_has_word entry Hc) as [w Hw]. exists w.
    split; [exact Hw|]. rewrite fold_left_app. cbn [fold_left].
    destruct (machine_fold_ok l1 None) as [r Hr]. rewrite Hr.
    unfold machine_step at 2. cbn [bind]. rewrite Hc, Hw. cbn [bind].
    now apply machine_fold_rest.
  - intros cfg Hn. unfold arch_of_header. rewrite Hn.
    destruct Hok as [[w|] ->]; cbn [bind]; [|auto].
    destruct (find _ supported_archs) as [[k a]|] eqn:E; [|auto].
    left. exists a. split; [reflexivity|]. apply find_some in E.
    destruct E as [Hin _]. simpl in Hin.
    destruct Hin as [E|[E|[E|[E|[]]]]]; inversion E; subst; simpl; auto.
Qed.

Lemma machine_word_read_witness :
  exists w,
    last_item
      (split_ws
         "  Machine:                           Advanced Micro Devices X86-64")
    = Ok w /\
    machine_word Demo.header = Ok (Some (lower w)).
Proof.
  apply (proj1 (proj2 (machine_word_read Demo.header))
           ["  Class:                             ELF64"]
           "  Machine:                           Advanced Micro Devices X86-64"
           ["  Version:                           0x1"]).
  - vm_compute. reflexivity.
  - vm_compute. reflexivity.
  - intros l [<-|[]]. vm_compute. reflexivity.
Defined.

(** X20.  The addresses of the report read back: [int(., 16)] applied
    to an address formatted with [#08x] gives the address, for every
    integer. *)
Theorem printed_address_reads_back (n : Z) :
  int16 (format_hash08x n) = Ok n.
Proof.
  destruct (format_shape_signed n) as [ds [E [Hv Hne]]]. rewrite E.
  rewrite (int16_prefixed (n <? 0)%Z Hne Hv).
  destruct (Z.ltb_spec n 0); f_equal; lia.
Qed.

Lemma line_after_next name l1 line next l2 :
  (forall l, In l l1 -> contains name l = false) ->
  contains name line = true ->
  line_after name (l1 ++ line :: next :: l2) = Ok (Some next).
Proof.
  induction l1 as [|x l1 IH]; intros H Hl; simpl.
  - now rewrite Hl.
  - rewrite (H x) by now left. apply IH; [|assumption].
    intros y Hy. apply H. now right.
Qed.

(** X21.  The end of the code range.  When the first line that holds
    the name is followed by a line [pre ++ "]" ++ post] with no other
    bracket, [find_next_section_info] looks up, by its name, the section
    whose name is the first word of [post], and returns the file offset
    that [get_section_info] finds for it (or fails as that call
    fails). *)
Theorem next_section_read (sections name : string)
  (l1 l2 more : list string) (line pre post nm : string) :
  splitlines sections
  = (l1 ++ line :: (pre ++ "]" ++ post)%string :: l2)%list ->
  (forall l, In l l1 -> contains name l = false) ->
  contains name line = true ->
  contains "]" pre = false ->
  contains "]" post = false ->
  split_ws post = nm :: more ->
  find_next_section_info sections name
  = (r <- get_section_info sections nm ;; Ok (NextStart (snd r))).
Proof.
  intros Hl Hl1 Hc Hpre Hpost Htok. unfold find_next_section_info.
  rewrite Hl, (line_after_next name l1 line _ l2 Hl1 Hc). cbn [bind].
  unfold split_on. cbn [bind].
  rewrite (@split_first "]"%char "" pre post Hpre), (@split_none _ post Hpost).
  cbn [item nth_error bind]. rewrite Htok. cbn [item nth_error bind].
  reflexivity.
Qed.

Lemma next_section_read_witness :
  find_next_section_info Demo.listing ".text"
  = (r <- get_section_info Demo.listing ".fini" ;; Ok (NextStart (snd r))) /\
  offsets_of_sections Demo.listing = Ok (4194304%Z, 1760%Z, 4276%Z).
Proof.
  split.
  - apply (@next_section_read Demo.listing ".text" [] [] ["PROGBITS";
             "00000000004010b4"; "0010b4"; "000009"] Demo.text_line "  [14"
             " .fini             PROGBITS        00000000004010b4 0010b4 000009"
             ".fini"); try (vm_compute; reflexivity).
    intros l [].
  - vm_compute. reflexivity.
Defined.
